(** * Autosuggestion engines: a shallow embedding and its properties

    Source: [autosuggestion/simple_suggesters.py] and
    [autosuggestion/ngrams_suggesters.py].

    Python values are embedded as follows.
    - [str] is a list of characters; [len], slicing [s[lo:hi]] (with
      Python's clamping and negative indices), repetition [s * n],
      [startswith] and the comparison [<] are written out below.
    - [int] is [Z].
    - [float] is IEEE 754 binary64, taken from the Standard Library's
      executable specification [SpecFloat] at precision 53.
    - a [dict] that is only looked up is a [gmap]; the [dict] whose
      [items()] are iterated keeps its insertion order in an association
      list.
    - a generator is embedded by the list of the values it yields when it
      is consumed to the end; a computation that can raise returns an
      [outcome]. *)

From Stdlib Require Import ZArith List Ascii String Lia Bool.
From Stdlib Require Import Sorting.Sorted Sorting.Permutation.
From Stdlib Require Import Floats.SpecFloat.
From stdpp Require Import base list sorting gmap strings.

Local Open Scope Z_scope.

(** ** Python strings *)

Abbreviation str := (list ascii).

(** A string literal. *)
Definition py (s : string) : str := list_ascii_of_string s.

Definition len {A} (s : list A) : Z := Z.of_nat (length s).

(** Normalisation of one bound of a slice: a negative bound counts from
    the end, and every bound is clamped to [0, len]. *)
Definition slice_bound (n i : Z) : Z :=
  if i <? 0 then Z.max (i + n) 0 else Z.min i n.

(** [s[lo:hi]] *)
Definition py_slice {A} (s : list A) (lo hi : Z) : list A :=
  let n := len s in
  let lo' := slice_bound n lo in
  let hi' := slice_bound n hi in
  take (Z.to_nat (hi' - lo')) (drop (Z.to_nat lo') s).

(** [s[lo:]] *)
Definition py_slice_from {A} (s : list A) (lo : Z) : list A :=
  drop (Z.to_nat (slice_bound (len s) lo)) s.

(** [s * n]: the empty string when [n <= 0]. *)
Definition str_mul (s : str) (n : Z) : str :=
  mjoin (replicate (Z.to_nat n) s).

(** [range(n)] *)
Definition range (n : Z) : list Z := seqZ 0 n.

(** [s.startswith(prefix)] *)
Fixpoint startswith (s prefix : str) : bool :=
  match prefix, s with
  | [], _ => true
  | _ :: _, [] => false
  | c :: prefix', d :: s' => bool_decide (c = d) && startswith s' prefix'
  end.

(** Comparison of characters by code point and of strings
    lexicographically: [a < b] and [a <= b] on [str]. *)
Definition code (c : ascii) : N := N_of_ascii c.

Fixpoint str_ltb (a b : str) : bool :=
  match a, b with
  | _, [] => false
  | [], _ :: _ => true
  | c :: a', d :: b' =>
      if (code c <? code d)%N then true
      else if (code d <? code c)%N then false
      else str_ltb a' b'
  end.

Definition str_leb (a b : str) : bool := negb (str_ltb b a).

(** ** Exceptions *)

Inductive exn := ZeroDivisionError | OverflowError.

Inductive outcome (A : Type) :=
  | Returns (a : A)
  | Raises (e : exn).
Arguments Returns {A} a.
Arguments Raises {A} e.

#[global] Instance outcome_ret : MRet outcome := fun A a => Returns a.

#[global] Instance outcome_bind : MBind outcome := fun A B k m =>
  match m with
  | Returns a => k a
  | Raises e => Raises e
  end.

#[global] Instance outcome_fmap : FMap outcome := fun A B f m =>
  match m with
  | Returns a => Returns (f a)
  | Raises e => Raises e
  end.

(** ** The n-gram tokenizer *)

(** The strings that [ngrams(text, size, sentinel)] yields when it is
    consumed to the end and the padding can be built; [ngrams_outcome]
    below has the error path of the padding. *)
Definition ngrams (text : str) (size : Z) (sentinel : str) : list str :=
  let padding := str_mul sentinel (size - 1) in
  let text := padding ++ text in
  let length := len text in
  let end_ := length - size + 1 in
  (fun i => py_slice text i (i + size)) <$> range end_.

Definition default_sentinel : str := py "_".

(** The bounds of an index ([Py_ssize_t], 64 bits). *)
Definition index_min : Z := - 2 ^ 63.
Definition index_max : Z := 2 ^ 63 - 1.

(** [s * n] as a computation.  The count is first converted to an index,
    [OverflowError] when it does not fit; a count below [1] gives the
    empty string, the count [1] the string itself, and a result longer
    than the largest index is refused with [OverflowError].  (Memory is
    not modelled: a string of any admitted length can be built.) *)
Definition str_mul_outcome (s : str) (n : Z) : outcome str :=
  if (n <? index_min) || (index_max <? n) then Raises OverflowError
  else if n <? 1 then Returns []
  else if n =? 1 then Returns s
  else if index_max / n <? len s then Raises OverflowError
  else Returns (str_mul s n).

(** [a + b] as a computation: an empty operand gives the other one, and a
    result longer than the largest index is refused with
    [OverflowError]. *)
Definition str_add_outcome (a b : str) : outcome str :=
  match a, b with
  | [], _ => Returns b
  | _, [] => Returns a
  | _, _ =>
      if index_max - len b <? len a then Raises OverflowError
      else Returns (a ++ b)
  end.

(** [ngrams(text, size, sentinel)] consumed to the end, as a computation:
    the yielded strings, or the exception that the padding
    [sentinel * (size - 1)] or the concatenation raises.  The generator
    has no [raise] statement of its own; [len], [range] and slicing
    accept every [int]. *)
Definition ngrams_outcome (text : str) (size : Z) (sentinel : str)
    : outcome (list str) :=
  padding ← str_mul_outcome sentinel (size - 1);
  text ← str_add_outcome padding text;
  let length := len text in
  let end_ := length - size + 1 in
  Returns ((fun i => py_slice text i (i + size)) <$> range end_).

(** The tokenizer in the words of the specification: every contiguous
    substring of length [n] of the padded text, from left to right. *)
Fixpoint windows (n : nat) (l : str) : list str :=
  match l with
  | [] => []
  | _ :: l' => if (n <=? length l)%nat then take n l :: windows n l' else []
  end.


(** ** Library functions the suggesters call *)

(** [Levenshtein.distance(a, b)]: the least number of single-character
    insertions, deletions and substitutions that turn [a] into [b], by
    the usual recurrence on the two strings. *)
Fixpoint distance (a : str) : str -> nat :=
  fix distance_a (b : str) : nat :=
    match a, b with
    | [], _ => length b
    | _, [] => length a
    | c :: a', d :: b' =>
        Nat.min (S (distance a' b))
          (Nat.min (S (distance_a b'))
             (distance a' b' + (if bool_decide (c = d) then 0 else 1)))
    end.

(** [list.sort()] on strings: a stable sort for [<]. *)
Fixpoint insert_sorted (x : str) (l : list str) : list str :=
  match l with
  | [] => [x]
  | y :: l' => if str_ltb y x then y :: insert_sorted x l' else x :: l
  end.

Definition sort (l : list str) : list str := foldr insert_sorted [] l.

(** [bisect.bisect_left(a, x)]:
    <<
      lo, hi = 0, len(a)
      while lo < hi:
          mid = (lo + hi) // 2
          if a[mid] < x: lo = mid + 1
          else: hi = mid
      return lo
    >>
    The loop runs on [fuel]; [hi - lo] decreases at every turn, so
    [length a] turns are enough ([bisect_left_split] below).  [a[mid]] is
    always in range there. *)
Fixpoint bisect_loop (fuel : nat) (a : list str) (x : str) (lo hi : nat) : nat :=
  match fuel with
  | O => lo
  | S fuel' =>
      if (lo <? hi)%nat then
        let mid := ((lo + hi) / 2)%nat in
        match a !! mid with
        | Some y =>
            if str_ltb y x then bisect_loop fuel' a x (mid + 1)%nat hi
            else bisect_loop fuel' a x lo mid
        | None => lo
        end
      else lo
  end.

Definition bisect_left (a : list str) (x : str) : nat :=
  bisect_loop (length a) a x 0%nat (length a).

(** [for x in l: if p(x): yield x else: break] *)
Fixpoint take_while {A} (p : A -> bool) (l : list A) : list A :=
  match l with
  | [] => []
  | x :: l' => if p x then x :: take_while p l' else []
  end.

(** [for s in suggestions: data.append(s)] *)
Definition append_all (data suggestions : list str) : list str :=
  foldl (fun data s => data ++ [s]) data suggestions.

(** ** BruteForceSuggester *)

Module BruteForceSuggester.

Record t := { data : list str }.

Definition init : t := {| data := [] |}.

Definition index (self : t) (suggestions : list str) : t :=
  {| data := append_all (data self) suggestions |}.

Definition search (self : t) (prefix : str) : list str :=
  filter (fun s => startswith s prefix) (data self).

Definition search_leveinshtein (self : t) (prefix : str)
    (max_edit_distance : Z) : list str :=
  let length := len prefix in
  filter (fun s => Z.of_nat (distance prefix (py_slice s 0 length))
                   <=? max_edit_distance)
    (data self).

End BruteForceSuggester.

(** ** BinarySearchSuggester *)

Module BinarySearchSuggester.

Record t := { data : list str }.

Definition init : t := {| data := [] |}.

Definition index (self : t) (suggestions : list str) : t :=
  {| data := sort (append_all (data self) suggestions) |}.

Definition search (self : t) (prefix : str) : list str :=
  let start_position := bisect_left (data self) prefix in
  take_while (fun suggestion => startswith suggestion prefix)
    (py_slice_from (data self) (Z.of_nat start_position)).

End BinarySearchSuggester.

(** ** Buckets shared by the two n-gram indexes *)

(** <<
      if ngram not in data: data[ngram] = [s]
      else: data[ngram].append(s)
    >> *)
Definition add_to_bucket (data : gmap str (list str)) (ngram s : str)
    : gmap str (list str) :=
  match data !! ngram with
  | None => <[ngram := [s]]> data
  | Some bucket => <[ngram := bucket ++ [s]]> data
  end.

(** ** EdgeNGramSuggester *)

Module EdgeNGramSuggester.

Record t := { data : gmap str (list str) }.

Definition init : t := {| data := ∅ |}.

Definition index_one (data : gmap str (list str)) (s : str)
    : gmap str (list str) :=
  foldl (fun data i => add_to_bucket data (py_slice s 0 (i + 1)) s)
    data (range (len s)).

Definition index (self : t) (suggestions : list str) : t :=
  {| data := foldl index_one (data self) suggestions |}.

Definition search (self : t) (prefix : str) : list str :=
  match data self !! prefix with
  | Some bucket => bucket
  | None => []
  end.

End EdgeNGramSuggester.

(** Any sequence of [index] calls on a fresh suggester. *)
Definition brute_force_after (calls : list (list str)) : BruteForceSuggester.t :=
  foldl BruteForceSuggester.index BruteForceSuggester.init calls.

Definition binary_search_after (calls : list (list str)) : BinarySearchSuggester.t :=
  foldl BinarySearchSuggester.index BinarySearchSuggester.init calls.

Definition edge_ngram_after (calls : list (list str)) : EdgeNGramSuggester.t :=
  foldl EdgeNGramSuggester.index EdgeNGramSuggester.init calls.

(** ** Floating point

    A Python [float] is an IEEE 754 binary64 number: [spec_float] at
    precision 53 and maximal exponent 1024, with the operations of
    [SpecFloat] (round to nearest, ties to even). *)

Abbreviation float := spec_float.

Definition prec : Z := 53.
Definition emax : Z := 1024.

(** The literal [1.0]. *)
Definition float_one : float := S754_finite false 4503599627370496 (-52).

(** Conversion of an [int] operand of a float operation: correctly
    rounded, [OverflowError] when the integer is too large. *)
Definition float_of_int (z : Z) : outcome float :=
  match binary_normalize prec emax z 0 false with
  | S754_infinity _ => Raises OverflowError
  | f => Returns f
  end.

(** [x / y] on floats. *)
Definition float_truediv (x y : float) : outcome float :=
  match y with
  | S754_zero _ => Raises ZeroDivisionError
  | _ => Returns (SFdiv prec emax x y)
  end.

(** [x > y] on floats. *)
Definition float_gt (x y : float) : bool := SFltb y x.

(** [gram_count * 1.0 / total_grams] *)
Definition percentage (gram_count total_grams : Z) : outcome float :=
  x ← float_of_int gram_count;
  let x1 := SFmul prec emax x float_one in
  y ← float_of_int total_grams;
  float_truediv x1 y.

(** ** NGramSuggester *)

(** The local [suggestions] dict of the two searches, in insertion order:
    <<
      if s in suggestions: suggestions[s] += 1
      else: suggestions[s] = 1
    >> *)
Fixpoint tally (s : str) (suggestions : list (str * Z)) : list (str * Z) :=
  match suggestions with
  | [] => [(s, 1)]
  | (s', gram_count) :: rest =>
      if bool_decide (s' = s) then (s', gram_count + 1) :: rest
      else (s', gram_count) :: tally s rest
  end.

(** [data.get(ngram, [])] *)
Definition bucket_of (data : gmap str (list str)) (ngram : str) : list str :=
  default [] (data !! ngram).

(** <<
      for ngram in grams:
          for s in self.data.get(ngram, []):
              ...
    >> *)
Definition tally_grams (data : gmap str (list str)) (grams : list str)
    : list (str * Z) :=
  foldl (fun suggestions ngram =>
           foldl (fun suggestions s => tally s suggestions)
             suggestions (bucket_of data ngram))
    [] grams.

Module NGramSuggester.

Record t := { data : gmap str (list str); ngram_size : Z }.

Definition default_ngram_size : Z := 2.

Definition init (ngram_size : Z) : t :=
  {| data := ∅; ngram_size := ngram_size |}.

Definition index_one (size : Z) (data : gmap str (list str)) (s : str)
    : gmap str (list str) :=
  foldl (fun data ngram => add_to_bucket data ngram s)
    data (ngrams s size default_sentinel).

Definition index (self : t) (suggestions : list str) : t :=
  {| data := foldl (index_one (ngram_size self)) (data self) suggestions;
     ngram_size := ngram_size self |}.

(** <<
      for s, gram_count in suggestions.items():
          percentage = gram_count * 1.0 / total_grams
          if percentage > match_percentage:
              yield s
    >> *)
Fixpoint yield_matches (total_grams : Z) (match_percentage : float)
    (items : list (str * Z)) : outcome (list str) :=
  match items with
  | [] => Returns []
  | (s, gram_count) :: rest =>
      p ← percentage gram_count total_grams;
      yielded ← yield_matches total_grams match_percentage rest;
      Returns (if float_gt p match_percentage then s :: yielded else yielded)
  end.

Definition search (self : t) (prefix : str) (match_percentage : float)
    : outcome (list str) :=
  let grams := ngrams prefix (ngram_size self) default_sentinel in
  let total_grams := len grams in
  let suggestions := tally_grams (data self) grams in
  yield_matches total_grams match_percentage suggestions.

(** <<
      for s, gram_count in suggestions.items():
          percentage = gram_count * 1.0 / total_grams
          if percentage > match_percentage:
              distance = levenshtein.distance(prefix, s[0:len(prefix)])
              if distance < max_leveinshtein_distance:
                  yield s
    >> *)
Fixpoint yield_close_matches (prefix : str) (total_grams : Z)
    (match_percentage : float) (max_leveinshtein_distance : Z)
    (items : list (str * Z)) : outcome (list str) :=
  match items with
  | [] => Returns []
  | (s, gram_count) :: rest =>
      p ← percentage gram_count total_grams;
      yielded ← yield_close_matches prefix total_grams match_percentage
                  max_leveinshtein_distance rest;
      Returns
        (if float_gt p match_percentage then
           if Z.of_nat (distance prefix (py_slice s 0 (len prefix)))
              <? max_leveinshtein_distance
           then s :: yielded else yielded
         else yielded)
  end.

Definition search_leveinshtein (self : t) (prefix : str)
    (match_percentage : float) (max_leveinshtein_distance : Z)
    : outcome (list str) :=
  let grams := ngrams prefix (ngram_size self) default_sentinel in
  let total_grams := len grams in
  let suggestions := tally_grams (data self) grams in
  yield_close_matches prefix total_grams match_percentage
    max_leveinshtein_distance suggestions.

End NGramSuggester.

Definition ngram_after (ngram_size : Z) (calls : list (list str)) : NGramSuggester.t :=
  foldl NGramSuggester.index (NGramSuggester.init ngram_size) calls.

(** ** Notions used in the statements *)

(** The number of occurrences of [k] in [keys]. *)
Definition occurrences (k : str) (keys : list str) : nat :=
  length (filter (fun key => key = k) keys).

(** The keys under which [index] files [s]: [s[0:i + 1]] for
    [i in range(len(s))]. *)
Definition edge_keys (s : str) : list str :=
  (fun i => py_slice s 0 (i + 1)) <$> range (len s).

(** [k] is a non-empty prefix of [s]. *)
Definition nonempty_prefix (k s : str) : bool :=
  negb (bool_decide (k = [])) && startswith s k.

Definition str_lt (a b : str) : Prop := str_ltb a b = true.
Definition str_le (a b : str) : Prop := str_leb a b = true.


(** A positive normal number: a mantissa of 53 digits and an exponent in
    range. *)
Definition normal (m : positive) (e : Z) : Prop :=
  2 ^ 52 <= Z.pos m < 2 ^ 53 /\ -1074 <= e <= 971.


(** The second half of [binary_round_aux]: rounding to nearest even of a
    mantissa with its location, and renormalisation after a carry. *)
Definition round_finish (m : Z) (e : Z) (l : location) : float :=
  let '(mrs, e') := shr_fexp prec emax (round_nearest_even m l) e loc_Exact in
  match shr_m mrs with
  | Z0 => S754_zero false
  | Z.pos m' =>
      if e' <=? emax - prec then S754_finite false m' e' else S754_infinity false
  | Z.neg _ => S754_nan
  end.


(** Where the remainder [rem] of a division by [2 ^ sh] lies with respect
    to the half [2 ^ (sh - 1)]. *)
Definition loc_of_rem (sh rem : Z) : location :=
  if rem =? 0 then loc_Exact else loc_Inexact (2 * rem ?= 2 ^ sh).

(** The binary64 number nearest to the positive integer [z], ties to
    even, as a mantissa of 53 digits and an exponent. *)
Definition rounded (z : positive) : positive * Z :=
  let d := Z.pos (digits2_pos z) in
  if d <=? 53 then (Z.to_pos (Z.pos z * 2 ^ (53 - d)), d - 53)
  else
    let sh := d - 53 in
    let m1 := round_nearest_even (Z.pos z / 2 ^ sh)
                (loc_of_rem sh (Z.pos z mod 2 ^ sh)) in
    if m1 <? 2 ^ 53 then (Z.to_pos m1, sh)
    else (4503599627370496%positive, sh + 1).

(** The state of the shifts of [binary_round_aux] after [n] turns on the
    mantissa [z]. *)
Definition shifted (z : positive) (n : Z) (mrs : shr_record) : Prop :=
  shr_m mrs = Z.pos z / 2 ^ n
  /\ loc_of_shr_record mrs = loc_of_rem n (Z.pos z mod 2 ^ n).


(** The entries that indexing [suggestions] with n-grams of [size] adds
    to the bucket of [ngram]: each string once per occurrence of the
    n-gram in it. *)
Definition filings (ngram : str) (size : Z) (suggestions : list str) : list str :=
  s ← suggestions;
  replicate (occurrences ngram (ngrams s size default_sentinel)) s.

(** The tally that holds the single candidate [s] with [gram_count] hits,
    and nothing when there is no hit. *)
Definition one_candidate (s : str) (gram_count : Z) : list (str * Z) :=
  if gram_count =? 0 then [] else [(s, gram_count)].

(** How often the n-grams of [l] occur in [grams], summed over the
    positions of [l]. *)
Definition hits_in (l grams : list str) : Z :=
  foldr (fun g total => Z.of_nat (occurrences g grams) + total) 0 l.

(** The number of bucket entries a search visits: the turns of the inner
    loop [for s in self.data.get(ngram, [])] over all of [grams]. *)
Definition visited (data : gmap str (list str)) (grams : list str) : Z :=
  foldr (fun ngram total => len (bucket_of data ngram) + total) 0 grams.

(** The sum of the counts of a tally. *)
Definition total_count (suggestions : list (str * Z)) : Z :=
  foldr (fun item total => item.2 + total) 0 suggestions.
(** ** Facts about the string primitives *)

Lemma str_mul_single (c : ascii) (n : Z) :
  str_mul [c] n = replicate (Z.to_nat n) c.
Proof.
  unfold str_mul. induction (Z.to_nat n) as [|k IH]; simpl; [done|].
  by rewrite IH.
Qed.

Lemma py_slice_inside {A} (s : list A) (lo hi : Z) :
  0 <= lo <= hi -> hi <= len s ->
  py_slice s lo hi = take (Z.to_nat (hi - lo)) (drop (Z.to_nat lo) s).
Proof.
  intros Hlo Hhi. unfold py_slice, slice_bound.
  destruct (Z.ltb_spec lo 0), (Z.ltb_spec hi 0); try lia.
  by rewrite !Z.min_l by lia.
Qed.

Lemma windows_seq (n : nat) (l : str) :
  (1 <= n)%nat ->
  windows n l = (fun i => take n (drop i l)) <$> seq 0 (length l + 1 - n).
Proof.
  intros Hn. induction l as [|a l IH]; simpl.
  - by replace (1 - n)%nat with 0%nat by lia.
  - destruct n as [|n]; [lia|]. cbn [Nat.leb].
    destruct (Nat.leb_spec n (length l)) as [Hle|Hgt].
    + replace (S (length l + 1) - S n)%nat with (S (length l + 1 - S n)) by lia.
      rewrite IH by lia. cbn [seq fmap list_fmap]. f_equal.
      by rewrite <- fmap_S_seq, <- list_fmap_compose.
    + by replace (S (length l + 1) - S n)%nat with 0%nat by lia.
Qed.

Lemma ngrams_eq_windows (text : str) (size : Z) (c : ascii) :
  1 <= size ->
  ngrams text size [c]
  = windows (Z.to_nat size) (replicate (Z.to_nat (size - 1)) c ++ text).
Proof.
  intros Hsize. unfold ngrams, range. rewrite str_mul_single.
  set (padded := replicate _ c ++ text).
  assert (Hlen : len padded = size - 1 + len text).
  { unfold len, padded. rewrite length_app, length_replicate. lia. }
  rewrite windows_seq by lia. unfold seqZ.
  replace (Z.to_nat (len padded - size + 1)) with (length text)
    by (unfold len in *; lia).
  replace (length padded + 1 - Z.to_nat size)%nat with (length text)
    by (unfold len in *; lia).
  rewrite <- list_fmap_compose. apply list_fmap_ext.
  intros i k Hk. apply lookup_seq in Hk as [-> Hk]. simpl.
  rewrite py_slice_inside by (unfold len in *; lia).
  f_equal; [lia|]. f_equal. lia.
Qed.

Lemma str_mul_nonpositive (s : str) (n : Z) : n <= 0 -> str_mul s n = [].
Proof. intros Hn. unfold str_mul. by replace (Z.to_nat n) with 0%nat by lia. Qed.

Lemma py_slice_empty {A} (s : list A) (i : Z) : py_slice s i i = [].
Proof. unfold py_slice. by rewrite Z.sub_diag. Qed.

Lemma length_ngrams (text : str) (size : Z) (sentinel : str) :
  length (ngrams text size sentinel)
  = Z.to_nat (len (str_mul sentinel (size - 1) ++ text) - size + 1).
Proof. unfold ngrams, range. by rewrite length_fmap, length_seqZ. Qed.

(** C5. With [size >= 1] and a one-character sentinel, [ngrams] yields the
    contiguous substrings of length [size] of the text padded on the left
    with [size - 1] sentinels, from left to right: there are [len(text)]
    of them, the one at position [i] starts at position [i] of the padded
    text, and each has [size] characters.  The two examples of the
    documentation are instances. *)
Theorem ngrams_sliding_windows (text : str) (size : Z) (c : ascii) :
  1 <= size ->
  let padded := replicate (Z.to_nat (size - 1)) c ++ text in
  ngrams text size [c] = windows (Z.to_nat size) padded
  /\ length (ngrams text size [c]) = length text
  /\ (forall i : nat, (i < length text)%nat ->
        ngrams text size [c] !! i = Some (take (Z.to_nat size) (drop i padded)))
  /\ Forall (fun gram => len gram = size) (ngrams text size [c])
  /\ ngrams (py "foo") 2 (py "_") = [py "_f"; py "fo"; py "oo"]
  /\ ngrams (py "a") 3 (py "_") = [py "__a"].
Proof.
  intros Hsize padded.
  assert (Hpad : length padded = (Z.to_nat (size - 1) + length text)%nat).
  { unfold padded. by rewrite length_app, length_replicate. }
  assert (Hseq : ngrams text size [c]
    = (fun i => take (Z.to_nat size) (drop i padded)) <$> seq 0 (length text)).
  { rewrite ngrams_eq_windows, windows_seq by lia. fold padded.
    f_equal. f_equal. lia. }
  split; [by apply ngrams_eq_windows|].
  split; [by rewrite Hseq, length_fmap, length_seq|].
  split.
  { intros i Hi. rewrite Hseq, list_lookup_fmap, lookup_seq_lt by done. done. }
  split; [|done].
  rewrite Hseq. apply Forall_fmap, Forall_forall. intros i Hi.
  apply elem_of_seq in Hi. simpl. unfold len.
  rewrite length_take, length_drop. lia.
Qed.

Lemma ngrams_sliding_windows_witness :
  ngrams (py "foo") 2 (py "_") = windows 2 (py "_foo")
  /\ length (ngrams (py "foo") 2 (py "_")) = 3%nat.
Proof.
  destruct (ngrams_sliding_windows (py "foo") 2 "_"%char ltac:(lia))
    as (Hw & Hl & _).
  split; [exact Hw | exact Hl].
Defined.

(** *** The error path of the padding *)

Lemma str_mul_outcome_returns (s : str) (n : Z) :
  index_min <= n <= index_max ->
  n <= 1 \/ len s * n <= index_max ->
  str_mul_outcome s n = Returns (str_mul s n).
Proof.
  intros Hn Hlen. unfold str_mul_outcome.
  destruct (Z.ltb_spec n index_min); [lia|].
  destruct (Z.ltb_spec index_max n); [lia|]. cbn [orb].
  destruct (Z.ltb_spec n 1); [by rewrite str_mul_nonpositive by lia|].
  destruct (Z.eqb_spec n 1) as [->|Hne].
  { unfold str_mul. simpl. by rewrite app_nil_r. }
  destruct (Z.ltb_spec (index_max / n) (len s)) as [Hlt|]; [|done].
  assert (len s <= index_max / n); [|lia].
  apply Z.div_le_lower_bound; lia.
Qed.

Lemma str_mul_outcome_overflow (s : str) (n : Z) :
  n < index_min \/ index_max < n ->
  str_mul_outcome s n = Raises OverflowError.
Proof.
  intros Hn. unfold str_mul_outcome.
  destruct (Z.ltb_spec n index_min); [done|].
  destruct (Z.ltb_spec index_max n); [done|lia].
Qed.

Lemma str_add_outcome_returns (a b : str) :
  a = [] \/ b = [] \/ len a + len b <= index_max ->
  str_add_outcome a b = Returns (a ++ b).
Proof.
  intros Hab. unfold str_add_outcome.
  destruct a as [|c a]; [done|]. destruct b as [|d b]; [by rewrite app_nil_r|].
  destruct Hab as [?|[?|Hlen]]; [done|done|].
  destruct (Z.ltb_spec (index_max - len (d :: b)) (len (c :: a))); [lia|done].
Qed.

(** When nothing overflows the computation returns the strings of
    [ngrams]. *)
Lemma ngrams_outcome_returns (text : str) (size : Z) (sentinel : str) :
  index_min <= size - 1 <= index_max ->
  size - 1 <= 1 \/ len sentinel * (size - 1) <= index_max ->
  str_mul sentinel (size - 1) = [] \/ text = []
    \/ len (str_mul sentinel (size - 1)) + len text <= index_max ->
  ngrams_outcome text size sentinel = Returns (ngrams text size sentinel).
Proof.
  intros Hsize Hmul Hadd. unfold ngrams_outcome.
  rewrite str_mul_outcome_returns by done.
  unfold mbind at 1, outcome_bind at 1.
  by rewrite str_add_outcome_returns by done.
Qed.

Lemma ngrams_outcome_overflow (text : str) (size : Z) (sentinel : str) :
  size - 1 < index_min \/ index_max < size - 1 ->
  ngrams_outcome text size sentinel = Raises OverflowError.
Proof.
  intros Hsize. unfold ngrams_outcome.
  by rewrite str_mul_outcome_overflow by done.
Qed.

(** C3, as the code has it.  [ngrams] has no check of [size].  With
    [- 2 ^ 63 < size < 1] nothing is raised: the padding is empty and
    [len(text) - size + 1] strings are yielded, all of them empty when
    [size = 0].  With [size <= - 2 ^ 63] the count of the repetition
    [sentinel * (size - 1)] does not fit an index and the call raises
    [OverflowError]. *)
Theorem ngrams_nonpositive_size_returns (text : str) (size : Z) (sentinel : str) :
  size < 1 ->
  (- 2 ^ 63 < size ->
   exists grams,
     ngrams_outcome text size sentinel = Returns grams
     /\ len grams = len text - size + 1
     /\ (size = 0 -> grams = replicate (S (length text)) []))
  /\ (size <= - 2 ^ 63 ->
      ngrams_outcome text size sentinel = Raises OverflowError).
Proof.
  intros Hsize. split.
  - intros Hmin. exists (ngrams text size sentinel). split; [|split].
    + apply ngrams_outcome_returns; unfold index_min, index_max; [lia|lia|].
      left. apply str_mul_nonpositive. lia.
    + unfold len. rewrite length_ngrams, str_mul_nonpositive by lia.
      simpl. unfold len. lia.
    + intros ->. unfold ngrams. rewrite str_mul_nonpositive by lia.
      rewrite app_nil_l. unfold range.
      replace (len text - 0 + 1) with (Z.of_nat (S (length text)))
        by (unfold len; lia).
      generalize (S (length text)). intros n.
      induction n as [|n IH]; [reflexivity|].
      rewrite seqZ_S, fmap_app, IH. simpl.
      rewrite Z.add_0_r, py_slice_empty.
      clear IH. induction n as [|n IH]; [done|]. simpl. by rewrite IH.
  - intros Hmin. apply ngrams_outcome_overflow. unfold index_min. lia.
Qed.

Lemma ngrams_nonpositive_size_returns_witness :
  exists grams,
    ngrams_outcome (py "ab") 0 (py "_") = Returns grams
    /\ len grams = 3
    /\ (0 = 0 -> grams = [[]; []; []]).
Proof.
  apply (ngrams_nonpositive_size_returns (py "ab") 0 (py "_")); lia.
Defined.

(** C3 fails as stated: with [size = 0] the call returns three empty
    strings instead of failing. *)
Lemma ngrams_size_zero_does_not_fail :
  0 < 1 /\ ngrams_outcome (py "ab") 0 (py "_") = Returns [py ""; py ""; py ""]
  /\ ~ (exists e, ngrams_outcome (py "ab") 0 (py "_") = Raises e).
Proof.
  split; [lia|]. split; [reflexivity|]. intros [e He]. discriminate He.
Qed.

(** ** Buckets *)

Lemma bucket_of_add (data : gmap str (list str)) (ngram s k : str) :
  bucket_of (add_to_bucket data ngram s) k
  = bucket_of data k ++ (if bool_decide (ngram = k) then [s] else []).
Proof.
  unfold bucket_of, add_to_bucket.
  destruct (data !! ngram) as [bucket|] eqn:Hg; case_bool_decide as Hk; subst.
  - by rewrite lookup_insert_eq, Hg.
  - by rewrite lookup_insert_ne, app_nil_r.
  - by rewrite lookup_insert_eq, Hg.
  - by rewrite lookup_insert_ne, app_nil_r.
Qed.

Lemma lookup_add_None (data : gmap str (list str)) (ngram s k : str) :
  add_to_bucket data ngram s !! k = None <-> data !! k = None /\ ngram <> k.
Proof.
  unfold add_to_bucket.
  destruct (data !! ngram) as [bucket|] eqn:Hg;
    (destruct (decide (ngram = k)) as [->|Hne];
     [rewrite lookup_insert_eq | rewrite lookup_insert_ne by done]);
    naive_solver.
Qed.

Lemma occurrences_cons (k key : str) (keys : list str) :
  occurrences k (key :: keys)
  = ((if bool_decide (key = k) then 1 else 0) + occurrences k keys)%nat.
Proof.
  unfold occurrences. rewrite filter_cons.
  case_decide; case_bool_decide; done.
Qed.

Lemma bucket_of_add_all (s k : str) (keys : list str) (data : gmap str (list str)) :
  bucket_of (foldl (fun data ngram => add_to_bucket data ngram s) data keys) k
  = bucket_of data k ++ replicate (occurrences k keys) s.
Proof.
  revert data. induction keys as [|key keys IH]; intros data; simpl.
  - by rewrite app_nil_r.
  - rewrite IH, bucket_of_add, <- app_assoc. f_equal.
    rewrite occurrences_cons. by case_bool_decide.
Qed.

Lemma lookup_add_all_None (s k : str) (keys : list str) (data : gmap str (list str)) :
  foldl (fun data ngram => add_to_bucket data ngram s) data keys !! k = None
  <-> data !! k = None /\ k ∉ keys.
Proof.
  revert data. induction keys as [|key keys IH]; intros data; simpl.
  - set_solver.
  - rewrite IH, lookup_add_None, not_elem_of_cons. naive_solver.
Qed.

(** ** EdgeNGramSuggester *)

Lemma edge_keys_take (s : str) :
  edge_keys s = (fun i => take (S i) s) <$> seq 0 (length s).
Proof.
  unfold edge_keys, range, seqZ, len. rewrite Nat2Z.id, <- list_fmap_compose.
  apply list_fmap_ext. intros i k Hk. apply lookup_seq in Hk as [-> Hk]. simpl.
  rewrite py_slice_inside by (unfold len; lia). simpl. f_equal. lia.
Qed.

Lemma edge_keys_cons (c : ascii) (s : str) :
  edge_keys (c :: s) = [c] :: (cons c <$> edge_keys s).
Proof.
  rewrite !edge_keys_take. cbn [length seq fmap list_fmap]. f_equal.
  rewrite <- fmap_S_seq, <- !list_fmap_compose. done.
Qed.

Lemma occurrences_cons_fmap (c d : ascii) (k : str) (keys : list str) :
  occurrences (d :: k) (cons c <$> keys)
  = if bool_decide (c = d) then occurrences k keys else 0%nat.
Proof.
  induction keys as [|key keys IH].
  - by case_bool_decide.
  - rewrite fmap_cons, !occurrences_cons, IH.
    repeat case_bool_decide; simplify_eq; done.
Qed.

Lemma occurrences_nil_fmap (c : ascii) (keys : list str) :
  occurrences [] (cons c <$> keys) = 0%nat.
Proof.
  induction keys as [|key keys IH]; [done|].
  by rewrite fmap_cons, occurrences_cons, IH.
Qed.

Lemma occurrences_edge_keys (k s : str) :
  occurrences k (edge_keys s) = if nonempty_prefix k s then 1%nat else 0%nat.
Proof.
  revert k. induction s as [|c s IH]; intros k.
  - destruct k; done.
  - rewrite edge_keys_cons, occurrences_cons.
    destruct k as [|d k].
    + by rewrite occurrences_nil_fmap.
    + rewrite occurrences_cons_fmap, IH. unfold nonempty_prefix. simpl.
      repeat case_bool_decide; simplify_eq; simpl; try done.
      by destruct s.
Qed.

Lemma nil_not_in_edge_keys (s : str) : [] ∉ edge_keys s.
Proof.
  rewrite edge_keys_take. intros Hin.
  apply list_elem_of_fmap in Hin as (i & Hi & Hin).
  apply elem_of_seq in Hin. destruct s; simpl in *; [lia | done].
Qed.

Lemma edge_search_bucket (self : EdgeNGramSuggester.t) (k : str) :
  EdgeNGramSuggester.search self k = bucket_of (EdgeNGramSuggester.data self) k.
Proof.
  unfold EdgeNGramSuggester.search, bucket_of.
  by destruct (EdgeNGramSuggester.data self !! k).
Qed.

Lemma edge_index_one_bucket (data : gmap str (list str)) (s k : str) :
  bucket_of (EdgeNGramSuggester.index_one data s) k
  = bucket_of data k ++ (if nonempty_prefix k s then [s] else []).
Proof.
  unfold EdgeNGramSuggester.index_one.
  pose proof (bucket_of_add_all s k (edge_keys s) data) as Hall.
  unfold edge_keys in Hall at 1. rewrite foldl_fmap in Hall. rewrite Hall.
  rewrite occurrences_edge_keys. by destruct (nonempty_prefix k s).
Qed.

Lemma edge_index_bucket (self : EdgeNGramSuggester.t) (suggestions : list str) (k : str) :
  EdgeNGramSuggester.search (EdgeNGramSuggester.index self suggestions) k
  = EdgeNGramSuggester.search self k
    ++ filter (fun s => nonempty_prefix k s) suggestions.
Proof.
  rewrite !edge_search_bucket. destruct self as [data]. simpl.
  revert data. induction suggestions as [|s suggestions IH]; intros data; simpl.
  - by rewrite app_nil_r.
  - rewrite IH, edge_index_one_bucket, <- app_assoc. f_equal.
    rewrite filter_cons. by destruct (nonempty_prefix k s).
Qed.

(** What a search returns after any sequence of [index] calls: the indexed
    strings of which the query is a non-empty prefix, in indexing order. *)
Lemma edge_search_after (calls : list (list str)) (k : str) :
  EdgeNGramSuggester.search (edge_ngram_after calls) k
  = filter (fun s => nonempty_prefix k s) (concat calls).
Proof.
  unfold edge_ngram_after.
  change (filter (fun s => nonempty_prefix k s) (concat calls))
    with (EdgeNGramSuggester.search EdgeNGramSuggester.init k
          ++ filter (fun s => nonempty_prefix k s) (concat calls)).
  generalize EdgeNGramSuggester.init.
  induction calls as [|call calls IH]; intros self; simpl.
  - by rewrite app_nil_r.
  - rewrite IH, edge_index_bucket, filter_app, app_assoc. done.
Qed.

Lemma edge_index_one_nil_key (data : gmap str (list str)) (s : str) :
  data !! [] = None -> EdgeNGramSuggester.index_one data s !! [] = None.
Proof.
  intros Hdata. unfold EdgeNGramSuggester.index_one.
  pose proof (lookup_add_all_None s [] (edge_keys s) data) as Hall.
  unfold edge_keys in Hall at 1. rewrite foldl_fmap in Hall.
  apply Hall. split; [done | apply nil_not_in_edge_keys].
Qed.

Lemma startswith_take (s : str) (n : nat) : startswith s (take n s) = true.
Proof.
  revert n. induction s as [|c s IH]; intros [|n]; simpl; try done.
  by rewrite bool_decide_eq_true_2, IH.
Qed.

(** C6. A string of the corpus is found under each of its non-empty
    prefixes [s[0:i]], [1 <= i <= len(s)]. *)
Theorem edge_search_finds_every_prefix (calls : list (list str)) (s : str) (i : Z) :
  s ∈ concat calls ->
  1 <= i <= len s ->
  s ∈ EdgeNGramSuggester.search (edge_ngram_after calls) (py_slice s 0 i).
Proof.
  intros Hs Hi. rewrite edge_search_after. apply list_elem_of_filter.
  split; [|done].
  rewrite py_slice_inside by lia. simpl. rewrite Z.sub_0_r.
  unfold nonempty_prefix. rewrite startswith_take, andb_true_r.
  destruct s as [|c s]; [unfold len in Hi; simpl in Hi; lia|].
  destruct (Z.to_nat i) eqn:Hn; [lia|]. done.
Qed.

Lemma edge_search_finds_every_prefix_witness :
  py "car" ∈ EdgeNGramSuggester.search
               (edge_ngram_after [[py "cat"; py "car"]; [py "dog"]]) (py "ca").
Proof.
  apply (edge_search_finds_every_prefix
           [[py "cat"; py "car"]; [py "dog"]] (py "car") 2).
  - simpl. apply list_elem_of_In. simpl. auto.
  - unfold len. simpl. lia.
Defined.

(** C10. The empty string is never a key of the index, whatever was
    indexed: searching for it yields nothing, and no search yields the
    empty string. *)
Theorem edge_index_never_keys_empty_string (calls : list (list str)) :
  EdgeNGramSuggester.data (edge_ngram_after calls) !! [] = None
  /\ EdgeNGramSuggester.search (edge_ngram_after calls) [] = []
  /\ forall prefix, [] ∉ EdgeNGramSuggester.search (edge_ngram_after calls) prefix.
Proof.
  split; [|split].
  - unfold edge_ngram_after.
    assert (Hinit : EdgeNGramSuggester.data EdgeNGramSuggester.init !! [] = None)
      by done.
    revert Hinit. generalize EdgeNGramSuggester.init.
    induction calls as [|call calls IH]; intros self Hself; simpl; [done|].
    apply IH. destruct self as [data]. simpl in *.
    revert data Hself. induction call as [|s call IHc]; intros data Hdata; simpl.
    + done.
    + by apply IHc, edge_index_one_nil_key.
  - rewrite edge_search_after. induction (concat calls) as [|s l IH]; [done|].
    rewrite filter_cons. simpl. done.
  - intros prefix. rewrite edge_search_after. intros Hin.
    apply list_elem_of_filter in Hin as [Hp _].
    unfold nonempty_prefix in Hp. destruct prefix; simpl in Hp; done.
Qed.

(** ** The order on strings *)

Lemma code_inj (c d : ascii) : code c = code d -> c = d.
Proof.
  unfold code. intros Hcd.
  by rewrite <- (ascii_N_embedding c), <- (ascii_N_embedding d), Hcd.
Qed.

Lemma str_ltb_irrefl (a : str) : str_ltb a a = false.
Proof.
  induction a as [|c a IH]; simpl; [done|].
  by rewrite N.ltb_irrefl.
Qed.

Lemma str_ltb_trichotomy (a b : str) :
  str_ltb a b = true \/ a = b \/ str_ltb b a = true.
Proof.
  revert b. induction a as [|c a IH]; intros [|d b]; simpl; auto.
  destruct (N.ltb_spec (code c) (code d)) as [Hcd|Hcd]; [auto|].
  destruct (N.ltb_spec (code d) (code c)) as [Hdc|Hdc]; [auto|].
  assert (c = d) as -> by (apply code_inj; lia).
  destruct (IH b) as [?|[->|?]]; auto.
Qed.

Lemma str_ltb_asym (a b : str) : str_ltb a b = true -> str_ltb b a = false.
Proof.
  revert b. induction a as [|c a IH]; intros [|d b]; simpl; try done.
  destruct (N.ltb_spec (code c) (code d)) as [Hcd|Hcd];
    destruct (N.ltb_spec (code d) (code c)) as [Hdc|Hdc]; try done; try lia.
  apply IH.
Qed.

Lemma str_ltb_trans (a b c : str) :
  str_ltb a b = true -> str_ltb b c = true -> str_ltb a c = true.
Proof.
  revert b c. induction a as [|x a IH]; intros [|y b] [|z c]; simpl; try done.
  destruct (N.ltb_spec (code x) (code y)), (N.ltb_spec (code y) (code x)),
    (N.ltb_spec (code y) (code z)), (N.ltb_spec (code z) (code y)),
    (N.ltb_spec (code x) (code z)), (N.ltb_spec (code z) (code x));
    try done; try lia.
  apply IH.
Qed.

Lemma str_le_refl (a : str) : str_le a a.
Proof. unfold str_le, str_leb. by rewrite str_ltb_irrefl. Qed.

Lemma str_lt_le (a b : str) : str_lt a b -> str_le a b.
Proof.
  unfold str_lt, str_le, str_leb. intros Hab. by rewrite str_ltb_asym.
Qed.

Lemma str_le_total (a b : str) : str_le a b \/ str_lt b a.
Proof. unfold str_le, str_lt, str_leb. destruct (str_ltb b a); auto. Qed.

Lemma str_le_lt_trans (a b c : str) : str_le a b -> str_lt b c -> str_lt a c.
Proof.
  unfold str_le, str_lt, str_leb. intros Hab Hbc.
  destruct (str_ltb_trichotomy a b) as [Hlt|[->|Hgt]].
  - by apply str_ltb_trans with b.
  - done.
  - by rewrite Hgt in Hab.
Qed.

Lemma str_le_trans (a b c : str) : str_le a b -> str_le b c -> str_le a c.
Proof.
  intros Hab Hbc. destruct (str_le_total a c) as [?|Hca]; [done|].
  pose proof (str_le_lt_trans _ _ _ Hbc Hca) as Hba.
  unfold str_le, str_leb, str_lt in *. by rewrite Hba in Hab.
Qed.

Lemma str_lt_not_le (a b : str) : str_lt a b -> ~ str_le b a.
Proof. unfold str_lt, str_le, str_leb. intros ->. done. Qed.

(** A string is at least each of its prefixes. *)
Lemma startswith_le (s p : str) : startswith s p = true -> str_le p s.
Proof.
  unfold str_le, str_leb. revert s.
  induction p as [|c p IH]; intros [|d s]; simpl; try done.
  intros [Hcd Hp]%andb_prop. apply bool_decide_eq_true in Hcd as ->.
  rewrite N.ltb_irrefl. by apply IH.
Qed.

(** The strings that start with [p] are an interval of the order. *)
Lemma startswith_between (p x y : str) :
  str_le p x -> str_le x y -> startswith y p = true -> startswith x p = true.
Proof.
  unfold str_le, str_leb. revert x y.
  induction p as [|c p IH]; intros [|d x] [|e y]; simpl; try done.
  intros Hpx Hxy [Hce Hy]%andb_prop. apply bool_decide_eq_true in Hce as <-.
  destruct (N.ltb_spec (code d) (code c)) as [Hdc|Hdc]; [done|].
  destruct (N.ltb_spec (code c) (code d)) as [Hcd|Hcd]; [done|].
  assert (c = d) as <- by (apply code_inj; lia).
  rewrite bool_decide_eq_true_2 by done. simpl. by apply IH with y.
Qed.

(** ** Sorting *)

Lemma insert_sorted_perm (x : str) (l : list str) : insert_sorted x l ≡ₚ x :: l.
Proof.
  induction l as [|y l IH]; simpl; [done|].
  destruct (str_ltb y x); [|done].
  by rewrite IH, Permutation_swap.
Qed.

Lemma sort_perm (l : list str) : sort l ≡ₚ l.
Proof.
  induction l as [|x l IH]; simpl; [done|].
  by rewrite insert_sorted_perm, IH.
Qed.

Lemma insert_sorted_sorted (x : str) (l : list str) :
  StronglySorted str_le l -> StronglySorted str_le (insert_sorted x l).
Proof.
  induction 1 as [|y l Hl IH Hy]; simpl.
  - by repeat constructor.
  - destruct (str_ltb y x) eqn:Hyx.
    + constructor; [done|].
      rewrite insert_sorted_perm. constructor; [by apply str_lt_le | done].
    + assert (Hxy : str_le x y) by (unfold str_le, str_leb; by rewrite Hyx).
      constructor; [by constructor|].
      constructor; [done|].
      eapply Forall_impl; [exact Hy|]. intros z Hz. by apply str_le_trans with y.
Qed.

Lemma sort_sorted (l : list str) : StronglySorted str_le (sort l).
Proof.
  induction l as [|x l IH]; simpl; [constructor | by apply insert_sorted_sorted].
Qed.

Lemma StronglySorted_lookup (l : list str) (i j : nat) (a b : str) :
  StronglySorted str_le l -> (i < j)%nat ->
  l !! i = Some a -> l !! j = Some b -> str_le a b.
Proof.
  intros Hl. revert i j. induction Hl as [|x l Hl IH Hx]; intros i j Hij Hi Hj.
  - done.
  - destruct j as [|j]; [lia|]. destruct i as [|i]; simpl in *.
    + simplify_eq. rewrite Forall_forall in Hx. apply Hx.
      by eapply list_elem_of_lookup_2.
    + apply (IH i j); [lia | done | done].
Qed.

Lemma append_all_app (data suggestions : list str) :
  append_all data suggestions = data ++ suggestions.
Proof.
  unfold append_all. revert data.
  induction suggestions as [|s suggestions IH]; intros data; simpl.
  - by rewrite app_nil_r.
  - by rewrite IH, <- app_assoc.
Qed.

(** C7. After every [index] call, whatever the calls before it were, the
    list of the suggester is in ascending lexicographic order: of two
    entries, the one at the smaller position is [<=] the other. *)
Theorem binary_search_index_sorted (calls : list (list str)) (suggestions : list str) :
  let self := BinarySearchSuggester.index (binary_search_after calls) suggestions in
  StronglySorted str_le (BinarySearchSuggester.data self)
  /\ (forall (i j : nat) (a b : str),
        (i < j)%nat ->
        BinarySearchSuggester.data self !! i = Some a ->
        BinarySearchSuggester.data self !! j = Some b ->
        str_leb a b = true).
Proof.
  intros self.
  assert (Hs : StronglySorted str_le (BinarySearchSuggester.data self))
    by apply sort_sorted.
  split; [done|]. intros i j a b Hij Hi Hj.
  by apply (StronglySorted_lookup (BinarySearchSuggester.data self) i j).
Qed.

(** ** Edit distance and BruteForceSuggester *)

Lemma distance_cons_cons (c d : ascii) (a b : str) :
  distance (c :: a) (d :: b)
  = Nat.min (S (distance a (d :: b)))
      (Nat.min (S (distance (c :: a) b))
         (distance a b + (if bool_decide (c = d) then 0 else 1))).
Proof. reflexivity. Qed.

Lemma distance_zero (a b : str) : distance a b = 0%nat <-> a = b.
Proof.
  revert b. induction a as [|c a IH]; intros b.
  - destruct b; simpl; split; intros; simplify_eq; done.
  - destruct b as [|d b]; [simpl; split; intros; simplify_eq|].
    rewrite distance_cons_cons. specialize (IH b).
    case_bool_decide as Hcd; split; intros H; simplify_eq.
    + f_equal. apply IH. lia.
    + assert (distance b b = 0%nat) by (by apply IH). lia.
    + lia.
Qed.

Lemma py_slice_prefix {A} (s : list A) (n : nat) :
  py_slice s 0 (Z.of_nat n) = take n s.
Proof.
  unfold py_slice, slice_bound, len. simpl.
  destruct (Z.ltb_spec (Z.of_nat n) 0) as [?|_]; [lia|].
  rewrite (Z.min_l 0) by lia. rewrite Z.sub_0_r.
  change (Z.to_nat 0) with 0%nat. rewrite drop_0.
  destruct (Z.min_spec (Z.of_nat n) (Z.of_nat (length s))) as [[? ->]|[? ->]].
  - by rewrite Nat2Z.id.
  - rewrite Nat2Z.id, take_ge by lia. by rewrite take_ge by lia.
Qed.

Lemma startswith_take_eq (s p : str) :
  startswith s p = true <-> take (length p) s = p.
Proof.
  revert s. induction p as [|c p IH]; intros [|d s]; simpl; try done.
  rewrite andb_true_iff, bool_decide_eq_true, IH.
  split; [intros [-> ->]; done | intros H; by simplify_eq].
Qed.

(** C8. With [max_edit_distance = 0] the distance search of
    BruteForceSuggester yields the same strings, in the same order, as
    the exact-prefix search. *)
Theorem brute_force_distance_zero_is_search (self : BruteForceSuggester.t) (prefix : str) :
  BruteForceSuggester.search_leveinshtein self prefix 0
  = BruteForceSuggester.search self prefix.
Proof.
  unfold BruteForceSuggester.search_leveinshtein, BruteForceSuggester.search.
  apply list_filter_iff. intros s. unfold len.
  rewrite py_slice_prefix, Is_true_true, Is_true_true, Z.leb_le, startswith_take_eq.
  split.
  - intros Hd. symmetry. apply distance_zero. lia.
  - intros Heq.
    assert (distance prefix (take (length prefix) s) = 0%nat) as Hz
      by (by apply distance_zero).
    lia.
Qed.

(** ** Binary search *)

Lemma bisect_loop_spec (a : list str) (x : str) (fuel lo hi : nat) :
  StronglySorted str_le a ->
  (lo <= hi <= length a)%nat ->
  (hi - lo <= fuel)%nat ->
  (forall i y, (i < lo)%nat -> a !! i = Some y -> str_lt y x) ->
  (forall i y, (hi <= i)%nat -> a !! i = Some y -> str_le x y) ->
  let r := bisect_loop fuel a x lo hi in
  (lo <= r <= hi)%nat
  /\ (forall i y, (i < r)%nat -> a !! i = Some y -> str_lt y x)
  /\ (forall i y, (r <= i)%nat -> a !! i = Some y -> str_le x y).
Proof.
  intros Ha. revert lo hi.
  induction fuel as [|fuel IH]; intros lo hi Hrange Hfuel Hbelow Habove;
    cbn [bisect_loop].
  - assert (lo = hi) as -> by lia. auto with lia.
  - destruct (Nat.ltb_spec lo hi) as [Hlt|Hge].
    2:{ assert (lo = hi) as -> by lia. auto with lia. }
    cbv zeta. set (mid := ((lo + hi) / 2)%nat).
    assert (Hmid : (lo <= mid < hi)%nat).
    { pose proof (Nat.div_mod_eq (lo + hi) 2) as Hdiv.
      pose proof (Nat.mod_upper_bound (lo + hi) 2 ltac:(lia)) as Hmod.
      fold mid in Hdiv. lia. }
    destruct (lookup_lt_is_Some_2 a mid ltac:(lia)) as [y Hy]. rewrite Hy.
    destruct (str_ltb y x) eqn:Hyx.
    + destruct (IH (mid + 1)%nat hi) as (Hr & Hb & Ha'); try lia; try done.
      { intros i z Hi Hz. destruct (decide (i = mid)) as [->|Hne].
        - by simplify_eq.
        - apply str_le_lt_trans with y; [|done].
          apply (StronglySorted_lookup a i mid); [done | lia | done | done]. }
      split; [lia | done].
    + destruct (IH lo mid) as (Hr & Hb & Ha'); try lia; try done.
      { intros i z Hi Hz.
        assert (Hxy : str_le x y) by (unfold str_le, str_leb; by rewrite Hyx).
        destruct (decide (i = mid)) as [->|Hne].
        - by simplify_eq.
        - apply str_le_trans with y; [done|].
          apply (StronglySorted_lookup a mid i); [done | lia | done | done]. }
      split; [lia | done].
Qed.

(** [bisect_left] returns the position that splits a sorted list into the
    entries [< x] and the entries [>= x]; the fuel given to the loop is
    enough for that. *)
Lemma bisect_left_split (a : list str) (x : str) :
  StronglySorted str_le a ->
  (bisect_left a x <= length a)%nat
  /\ Forall (fun y => str_lt y x) (take (bisect_left a x) a)
  /\ Forall (fun y => str_le x y) (drop (bisect_left a x) a).
Proof.
  intros Ha. unfold bisect_left.
  destruct (bisect_loop_spec a x (length a) 0 (length a)) as (Hr & Hb & Habove);
    try done; try lia.
  { intros i y Hi Hy. apply lookup_lt_Some in Hy. lia. }
  split; [lia|]. split; apply Forall_forall; intros y Hin;
    apply list_elem_of_lookup in Hin as [i Hi].
  - apply lookup_take_Some in Hi as [Hi Hlt]. by apply (Hb i).
  - rewrite lookup_drop in Hi. eapply Habove; [|exact Hi]. lia.
Qed.

Lemma filter_none {A} (P : A -> Prop) `{forall x, Decision (P x)} (l : list A) :
  Forall (fun x => ~ P x) l -> filter P l = [].
Proof.
  induction 1 as [|x l Hx Hl IH]; [done|].
  by rewrite filter_cons, decide_False.
Qed.

Lemma take_while_filter_sorted (p : str) (l : list str) :
  StronglySorted str_le l ->
  Forall (fun y => str_le p y) l ->
  take_while (fun s => startswith s p) l = filter (fun s => startswith s p) l.
Proof.
  induction 1 as [|x l Hl IH Hx]; intros Hp; [done|].
  apply Forall_cons in Hp as [Hpx Hp]. simpl. rewrite filter_cons.
  destruct (startswith x p) eqn:Hxp; simpl.
  - by rewrite IH.
  - symmetry. apply filter_none. rewrite Forall_forall in Hx |- *.
    intros y Hy Hyp%Is_true_true.
    rewrite (startswith_between p x y) in Hxp; [done | done | by apply Hx | done].
Qed.

(** On a sorted list the binary search yields, in the order of the list,
    the entries that start with the prefix. *)
Lemma binary_search_sorted (self : BinarySearchSuggester.t) (p : str) :
  StronglySorted str_le (BinarySearchSuggester.data self) ->
  BinarySearchSuggester.search self p
  = filter (fun s => startswith s p) (BinarySearchSuggester.data self).
Proof.
  intros Hs. unfold BinarySearchSuggester.search, py_slice_from, slice_bound, len.
  destruct (bisect_left_split (BinarySearchSuggester.data self) p Hs)
    as (Hr & Hbelow & Habove).
  set (r := bisect_left (BinarySearchSuggester.data self) p) in *.
  destruct (Z.ltb_spec (Z.of_nat r) 0) as [?|_]; [lia|].
  rewrite Z.min_l, Nat2Z.id by lia.
  rewrite take_while_filter_sorted; [| |done].
  2:{ rewrite <- (take_drop r) in Hs. by apply StronglySorted_app_1_r in Hs. }
  transitivity (filter (fun s => startswith s p)
                  (take r (BinarySearchSuggester.data self)
                   ++ drop r (BinarySearchSuggester.data self)));
    [|by rewrite take_drop].
  rewrite filter_app.
  rewrite (filter_none _ (take r (BinarySearchSuggester.data self))); [done|].
  eapply Forall_impl; [exact Hbelow|]. intros y Hy Hyp%Is_true_true.
  by apply (str_lt_not_le y p), startswith_le.
Qed.

Lemma binary_search_after_sorted (calls : list (list str)) :
  StronglySorted str_le (BinarySearchSuggester.data (binary_search_after calls)).
Proof.
  unfold binary_search_after.
  assert (Hinit : StronglySorted str_le
            (BinarySearchSuggester.data BinarySearchSuggester.init))
    by constructor.
  revert Hinit. generalize BinarySearchSuggester.init.
  induction calls as [|call calls IH]; intros self Hself; simpl; [done|].
  apply IH, sort_sorted.
Qed.

Lemma binary_search_after_perm (calls : list (list str)) :
  BinarySearchSuggester.data (binary_search_after calls) ≡ₚ concat calls.
Proof.
  unfold binary_search_after.
  change (concat calls)
    with (BinarySearchSuggester.data BinarySearchSuggester.init ++ concat calls).
  generalize BinarySearchSuggester.init.
  induction calls as [|call calls IH]; intros self; simpl.
  - by rewrite app_nil_r.
  - rewrite IH. simpl. by rewrite sort_perm, append_all_app, app_assoc.
Qed.

Lemma brute_force_after_data (calls : list (list str)) :
  BruteForceSuggester.data (brute_force_after calls) = concat calls.
Proof.
  unfold brute_force_after.
  change (concat calls)
    with (BruteForceSuggester.data BruteForceSuggester.init ++ concat calls).
  generalize BruteForceSuggester.init.
  induction calls as [|call calls IH]; intros self; simpl.
  - by rewrite app_nil_r.
  - rewrite IH. simpl. by rewrite append_all_app, app_assoc.
Qed.

(** C1. After the same sequence of [index] calls, the binary search and
    the linear scan yield the same strings for every prefix: the two
    results are permutations of one another, hence equal as sets. *)
Theorem binary_search_agrees_with_brute_force (calls : list (list str)) (p : str) :
  BinarySearchSuggester.search (binary_search_after calls) p
    ≡ₚ BruteForceSuggester.search (brute_force_after calls) p
  /\ forall s,
       s ∈ BinarySearchSuggester.search (binary_search_after calls) p
       <-> s ∈ BruteForceSuggester.search (brute_force_after calls) p.
Proof.
  assert (Hperm : BinarySearchSuggester.search (binary_search_after calls) p
            ≡ₚ BruteForceSuggester.search (brute_force_after calls) p).
  { rewrite binary_search_sorted by apply binary_search_after_sorted.
    unfold BruteForceSuggester.search.
    by rewrite brute_force_after_data, binary_search_after_perm. }
  split; [done|]. intros s. by rewrite Hperm.
Qed.

(** ** Binary64 arithmetic on the values the searches compute *)

Lemma digits2_pos_size (m : positive) : digits2_pos m = Pos.size m.
Proof. induction m as [m IH|m IH|]; simpl; by rewrite ?IH. Qed.

Lemma digits2_pos_bounds (m : positive) :
  2 ^ (Z.pos (digits2_pos m) - 1) <= Z.pos m < 2 ^ Z.pos (digits2_pos m).
Proof.
  rewrite digits2_pos_size.
  pose proof (Pos.size_gt m) as Hgt. pose proof (Pos.size_le m) as Hle.
  apply Pos2Z.pos_lt_pos in Hgt. apply Pos2Z.pos_le_pos in Hle.
  rewrite Pos2Z.inj_pow in Hgt, Hle.
  change (Z.pos m~0) with (2 * Z.pos m) in Hle.
  split; [|done].
  replace (Z.pos (Pos.size m)) with (Z.succ (Z.pos (Pos.size m) - 1)) in Hle by lia.
  rewrite Z.pow_succ_r in Hle by lia. lia.
Qed.

Lemma digits2_pos_unique (m : positive) (d : Z) :
  2 ^ (d - 1) <= Z.pos m < 2 ^ d -> Z.pos (digits2_pos m) = d.
Proof.
  intros [Hlo Hhi]. pose proof (digits2_pos_bounds m) as [Hlo' Hhi'].
  set (d' := Z.pos (digits2_pos m)) in *.
  assert (0 < d).
  { destruct (Z.le_gt_cases d 0) as [Hd|]; [|done].
    assert (2 ^ d <= 1); [|lia].
    destruct (decide (d = 0)) as [->|]; [done|].
    rewrite Z.pow_neg_r by lia. lia. }
  destruct (Z.lt_trichotomy d' d) as [Hlt|[?|Hgt]]; [|done|].
  - assert (2 ^ d' <= 2 ^ (d - 1)) by (apply Z.pow_le_mono_r; lia). lia.
  - assert (2 ^ d <= 2 ^ (d' - 1)) by (apply Z.pow_le_mono_r; lia). lia.
Qed.

Lemma normal_digits (m : positive) (e : Z) :
  normal m e -> Z.pos (digits2_pos m) = 53.
Proof. intros [Hm _]. by apply digits2_pos_unique. Qed.

Lemma fexp_normal (n : Z) : -1021 <= n -> fexp prec emax n = n - 53.
Proof. unfold fexp, emin, prec, emax. lia. Qed.

Lemma binary_round_aux_finish (m e : Z) (l : location) :
  binary_round_aux prec emax false m e l
  = let '(mrs, e') := shr_fexp prec emax m e l in
    round_finish (shr_m mrs) e' (loc_of_shr_record mrs).
Proof.
  unfold binary_round_aux, round_finish.
  destruct (shr_fexp prec emax m e l) as [mrs e']. reflexivity.
Qed.

Lemma round_nearest_even_cases (m : Z) (l : location) :
  round_nearest_even m l = m \/ round_nearest_even m l = m + 1.
Proof. destruct l as [|[]]; simpl; auto. destruct (Z.even m); auto. Qed.

Lemma round_nearest_even_exact (m : Z) : round_nearest_even m loc_Exact = m.
Proof. reflexivity. Qed.

Lemma shr_record_of_loc_m (m : Z) (l : location) : shr_m (shr_record_of_loc m l) = m.
Proof. by destruct l as [|[]]. Qed.

Lemma loc_of_shr_record_of_loc (m : Z) (l : location) :
  loc_of_shr_record (shr_record_of_loc m l) = l.
Proof. by destruct l as [|[]]. Qed.

Lemma shr_fexp_normal (m : positive) (e : Z) (l : location) :
  normal m e -> shr_fexp prec emax (Z.pos m) e l = (shr_record_of_loc (Z.pos m) l, e).
Proof.
  intros Hn. unfold shr_fexp. simpl Zdigits2.
  rewrite (normal_digits m e Hn), fexp_normal by (destruct Hn; lia).
  by replace (53 + e - 53 - e) with 0 by lia.
Qed.

Lemma round_finish_explicit (m : positive) (e : Z) (l : location) :
  normal m e -> e <= 970 ->
  round_finish (Z.pos m) e l
  = if round_nearest_even (Z.pos m) l <? 2 ^ 53
    then S754_finite false (Z.to_pos (round_nearest_even (Z.pos m) l)) e
    else S754_finite false 4503599627370496 (e + 1).
Proof.
  intros Hn He. unfold round_finish.
  assert (Hfin : forall m', normal m' e ->
    (let '(mrs, e') := shr_fexp prec emax (Z.pos m') e loc_Exact in
     match shr_m mrs with
     | 0 => S754_zero false
     | Z.pos m'' =>
         if e' <=? emax - prec then S754_finite false m'' e'
         else S754_infinity false
     | Z.neg _ => S754_nan
     end) = S754_finite false m' e).
  { intros m' Hn'. rewrite shr_fexp_normal by done. simpl.
    destruct (Z.leb_spec e (emax - prec)) as [_|Hgt];
      [done | unfold emax, prec in Hgt; lia]. }
  destruct (round_nearest_even_cases (Z.pos m) l) as [Hr|Hr]; rewrite Hr.
  - destruct (Z.ltb_spec (Z.pos m) (2 ^ 53)) as [_|?]; [|destruct Hn; lia].
    by apply Hfin.
  - change (Z.pos m + 1) with (Z.pos (m + 1)).
    destruct (Z.ltb_spec (Z.pos (m + 1)) (2 ^ 53)) as [Hlt|Hge].
    + apply Hfin. destruct Hn; split; lia.
    + assert (Heq : (m + 1)%positive = 9007199254740992%positive)
        by (destruct Hn; lia).
      rewrite Heq. unfold shr_fexp.
      change (Zdigits2 (Z.pos 9007199254740992)) with 54.
      rewrite fexp_normal by (destruct Hn; lia).
      replace (54 + e - 53 - e) with 1 by lia. simpl.
      destruct (Z.leb_spec (e + 1) (emax - prec)) as [_|Hgt];
        [done | unfold emax, prec in Hgt; lia].
Qed.

Lemma round_finish_normal (m : positive) (e : Z) (l : location) :
  normal m e -> e <= 970 ->
  exists m' e',
    round_finish (Z.pos m) e l = S754_finite false m' e'
    /\ normal m' e' /\ e <= e'
    /\ (l = loc_Exact -> m' = m /\ e' = e).
Proof.
  intros Hn He. unfold round_finish.
  destruct (round_nearest_even_cases (Z.pos m) l) as [Hr|Hr].
  - rewrite Hr, shr_fexp_normal by done. simpl.
    destruct (Z.leb_spec e (emax - prec)) as [_|Hgt];
      [|unfold emax, prec in Hgt; lia].
    exists m, e. auto with lia.
  - assert (Hl : l <> loc_Exact) by (intros ->; simpl in Hr; lia).
    rewrite Hr. change (Z.pos m + 1) with (Z.pos (m + 1)).
    destruct (decide (Z.pos (m + 1) < 2 ^ 53)) as [Hlt|Hge].
    + assert (Hn' : normal (m + 1) e) by (destruct Hn; split; lia).
      rewrite shr_fexp_normal by done. simpl.
      destruct (Z.leb_spec e (emax - prec)) as [_|Hgt];
        [|unfold emax, prec in Hgt; lia].
      exists (m + 1)%positive, e. done.
    + assert (Heq : (m + 1)%positive = 9007199254740992%positive)
        by (destruct Hn; lia).
      rewrite Heq. unfold shr_fexp.
      change (Zdigits2 (Z.pos 9007199254740992)) with 54.
      rewrite fexp_normal by (destruct Hn; lia).
      replace (54 + e - 53 - e) with 1 by lia. simpl.
      destruct (Z.leb_spec (e + 1) (emax - prec)) as [_|Hgt];
        [|unfold emax, prec in Hgt; lia].
      exists 4503599627370496%positive, (e + 1).
      split; [done|]. split; [|split; [lia|done]].
      destruct Hn. split; lia.
Qed.

Lemma binary_round_aux_normal (m : positive) (e : Z) (l : location) :
  normal m e -> e <= 970 ->
  exists m' e',
    binary_round_aux prec emax false (Z.pos m) e l = S754_finite false m' e'
    /\ normal m' e' /\ e <= e'
    /\ (l = loc_Exact -> m' = m /\ e' = e).
Proof.
  intros Hn He. rewrite binary_round_aux_finish, shr_fexp_normal by done.
  rewrite shr_record_of_loc_m, loc_of_shr_record_of_loc.
  by apply round_finish_normal.
Qed.

Lemma binary_round_aux_54 (m : positive) (e : Z) (l : location) :
  2 ^ 53 <= Z.pos m < 2 ^ 54 -> -1075 <= e <= 969 ->
  exists m' e',
    binary_round_aux prec emax false (Z.pos m) e l = S754_finite false m' e'
    /\ normal m' e' /\ e + 1 <= e'.
Proof.
  intros Hm He. rewrite binary_round_aux_finish. unfold shr_fexp.
  simpl Zdigits2. rewrite (digits2_pos_unique m 54) by done.
  rewrite fexp_normal by lia. replace (54 + e - 53 - e) with 1 by lia.
  cbn [shr SpecFloat.iter_pos].
  assert (Hhalf : exists p r s,
    shr_1 (shr_record_of_loc (Z.pos m) l)
    = {| shr_m := Z.pos p; shr_r := r; shr_s := s |}
    /\ 2 ^ 52 <= Z.pos p < 2 ^ 53).
  { destruct m as [p|p|]; [| |lia]; destruct l as [|[]]; simpl;
      eexists p, _, _; (split; [reflexivity|lia]). }
  destruct Hhalf as (p & r & s & -> & Hp). cbn [shr_m].
  destruct (round_finish_normal p (e + 1)
              (loc_of_shr_record {| shr_m := Z.pos p; shr_r := r; shr_s := s |}))
    as (m' & e' & Heq & Hn' & He' & _); [split; lia | lia |].
  exists m', e'. done.
Qed.

(** [x * 1.0] is [x]. *)
Lemma SFmul_one (m : positive) (e : Z) :
  normal m e -> -1022 <= e <= 970 ->
  SFmul prec emax (S754_finite false m e) float_one = S754_finite false m e.
Proof.
  intros Hn He. unfold SFmul, float_one. cbn [xorb].
  rewrite binary_round_aux_finish. unfold shr_fexp.
  rewrite Pos.mul_comm.
  change (4503599627370496 * m)%positive with (Pos.iter xO m 52).
  set (m52 := Pos.iter xO m 52).
  assert (Hm52 : Z.pos m52 = Z.pos m * 2 ^ 52)
    by (unfold m52; cbv [Pos.iter]; lia).
  change (Zdigits2 (Z.pos m52)) with (Z.pos (digits2_pos m52)).
  rewrite (digits2_pos_unique m52 105) by (destruct Hn; lia).
  rewrite fexp_normal by lia.
  replace (105 + (e + -52) - 53 - (e + -52)) with 52 by lia.
  unfold m52. cbv [Pos.iter shr SpecFloat.iter_pos shr_record_of_loc shr_1 orb].
  cbn [shr_m loc_of_shr_record].
  destruct (round_finish_normal m (e + -52 + 52) loc_Exact)
    as (m' & e' & Heq & _ & _ & Hex); [destruct Hn; split; lia | destruct Hn; lia |].
  destruct (Hex eq_refl) as [-> ->]. rewrite Heq. f_equal. lia.
Qed.

Lemma SFdiv_core_binary_normal (mx my : positive) (ex ey : Z) :
  normal mx ex -> normal my ey -> ey <= ex ->
  SFdiv_core_binary prec emax (Z.pos mx) ex (Z.pos my) ey
  = ((Z.pos mx * 2 ^ 53) / Z.pos my, ex - ey - 53,
     new_location (Z.pos my) ((Z.pos mx * 2 ^ 53) mod Z.pos my)).
Proof.
  intros Hx Hy Hle. unfold SFdiv_core_binary.
  change (Zdigits2 (Z.pos mx)) with (Z.pos (digits2_pos mx)).
  change (Zdigits2 (Z.pos my)) with (Z.pos (digits2_pos my)).
  rewrite (normal_digits mx ex Hx), (normal_digits my ey Hy).
  replace (53 + ex - (53 + ey)) with (ex - ey) by lia.
  rewrite fexp_normal by lia.
  rewrite Z.min_l by lia.
  replace (ex - ey - (ex - ey - 53)) with 53 by lia. cbv iota.
  change (IntDef.Z.div_eucl (Z.pos mx ≪ 53) (Z.pos my))
    with (Z.div_eucl (Z.shiftl (Z.pos mx) 53) (Z.pos my)).
  rewrite Z.shiftl_mul_pow2 by lia. unfold Z.div, Z.modulo.
  by destruct (Z.div_eucl (Z.pos mx * 2 ^ 53) (Z.pos my)).
Qed.

(** [x / x] is [1.0]. *)
Lemma SFdiv_diag (m : positive) (e : Z) :
  normal m e ->
  SFdiv prec emax (S754_finite false m e) (S754_finite false m e) = float_one.
Proof.
  intros Hn. unfold SFdiv. rewrite SFdiv_core_binary_normal by (done || lia).
  rewrite (Z.mul_comm (Z.pos m) (2 ^ 53)).
  rewrite Z.div_mul, Z.mod_mul by lia. rewrite Z.sub_diag.
  assert (Hloc : new_location (Z.pos m) 0 = loc_Exact).
  { unfold new_location, new_location_even, new_location_odd.
    by destruct (Z.even (Z.pos m)). }
  rewrite Hloc. reflexivity.
Qed.

(** The quotient of two normal numbers is at least [1.0] when the
    dividend is at least the divisor. *)
Lemma SFdiv_ge_one (mx my : positive) (ex ey : Z) :
  normal mx ex -> normal my ey ->
  ey < ex \/ (ey = ex /\ Z.pos my <= Z.pos mx) ->
  ex - ey <= 1000 ->
  exists m e,
    SFdiv prec emax (S754_finite false mx ex) (S754_finite false my ey)
    = S754_finite false m e
    /\ normal m e /\ -52 <= e.
Proof.
  intros Hx Hy Hle Hk. unfold SFdiv.
  rewrite SFdiv_core_binary_normal by (done || lia). cbn [xorb].
  set (q := (Z.pos mx * 2 ^ 53) / Z.pos my).
  set (l := new_location _ _).
  destruct Hx as [Hmx Hex], Hy as [Hmy Hey].
  assert (Hq_hi : q < 2 ^ 54) by (apply Z.div_lt_upper_bound; lia).
  assert (Hq_lo : 2 ^ 52 <= q) by (apply Z.div_le_lower_bound; lia).
  assert (Hq_eq : ey = ex -> 2 ^ 53 <= q)
    by (intros ->; apply Z.div_le_lower_bound; lia).
  destruct q as [|qp|qp]; try lia.
  destruct (Z.lt_ge_cases (Z.pos qp) (2 ^ 53)) as [Hlt|Hge].
  - destruct (binary_round_aux_normal qp (ex - ey - 53) l)
      as (m & e & Heq & Hn & He & _); [split; lia | lia |].
    exists m, e. split; [done|]. split; [done|]. lia.
  - destruct (binary_round_aux_54 qp (ex - ey - 53) l)
      as (m & e & Heq & Hn & He); [lia | lia |].
    exists m, e. split; [done|]. split; [done|]. lia.
Qed.

Lemma SFcompare_finite (m1 m2 : positive) (e1 e2 : Z) :
  SFcompare (S754_finite false m1 e1) (S754_finite false m2 e2)
  = Some match e1 ?= e2 with
         | Lt => Lt
         | Gt => Gt
         | Eq => (m1 ?= m2)%positive
         end.
Proof. reflexivity. Qed.


(** [t < 1.0 <= p] gives [t < p], and [1.0 <= t] excludes [t < 1.0]. *)
Lemma float_lt_one_le (t : float) (m : positive) (e : Z) :
  normal m e -> -52 <= e ->
  SFltb t float_one = true -> SFltb t (S754_finite false m e) = true.
Proof.
  intros [Hm _] He. unfold SFltb, float_one.
  destruct t as [s|s|
                 |s mt et]; try done.
  destruct s; [done|]. rewrite !SFcompare_finite, !Pos2Z.inj_compare.
  destruct (Z.compare_spec et (-52)); try done.
  - subst. destruct (Z.compare_spec (Z.pos mt) (Z.pos 4503599627370496)); try done.
    intros _. destruct (Z.compare_spec (-52) e); [|done|lia].
    destruct (Z.compare_spec (Z.pos mt) (Z.pos m)); [lia|done|lia].
  - intros _. destruct (Z.compare_spec et e); [lia|done|lia].
Qed.

Lemma float_one_le_not_lt (t : float) :
  SFleb float_one t = true -> SFltb t float_one = false.
Proof.
  unfold SFleb, SFltb, float_one.
  destruct t as [s|s| |s mt et]; try done.
  - by destruct s.
  - destruct s; [done|]. rewrite !SFcompare_finite.
    rewrite (Z.compare_antisym et (-52)), (Pos.compare_antisym mt 4503599627370496).
    destruct (et ?= -52); simpl; try done.
    by destruct (mt ?= 4503599627370496)%positive.
Qed.

(** *** Conversion of integers *)

Lemma pos_iter_xO (z k : positive) :
  Z.pos (Pos.iter xO z k) = Z.pos z * 2 ^ Z.pos k.
Proof.
  induction k as [|k IH] using Pos.peano_ind.
  - simpl. lia.
  - rewrite Pos.iter_succ, Pos2Z.inj_succ, Z.pow_succ_r by lia.
    rewrite Pos2Z.inj_xO, IH. lia.
Qed.

Lemma shr_1_div2 (m : Z) (r s : bool) :
  0 <= m ->
  shr_1 {| shr_m := m; shr_r := r; shr_s := s |}
  = {| shr_m := m / 2; shr_r := Z.odd m; shr_s := r || s |}.
Proof.
  intros Hm. destruct m as [|[p|p|]|p]; try lia; try reflexivity.
  - cbn [shr_1]. f_equal. rewrite Pos2Z.inj_xI.
    rewrite (Z.mul_comm 2), Z.div_add_l by lia. done.
  - cbn [shr_1]. f_equal. rewrite Pos2Z.inj_xO.
    by rewrite (Z.mul_comm 2), Z.div_mul by lia.
Qed.

Lemma shifted_step (z : positive) (n : Z) (mrs : shr_record) :
  0 <= n -> shifted z n mrs -> shifted z (n + 1) (shr_1 mrs).
Proof.
  intros Hn [Hm Hl]. destruct mrs as [m r s]. cbn [shr_m] in Hm.
  assert (Hpow : 0 < 2 ^ n) by (apply Z.pow_pos_nonneg; lia).
  assert (Hm0 : 0 <= m) by (subst m; apply Z.div_pos; lia).
  rewrite shr_1_div2 by done.
  assert (Hdiv : Z.pos z / 2 ^ (n + 1) = m / 2).
  { rewrite Z.pow_add_r, Z.pow_1_r, <- Z.div_div by lia. by rewrite Hm. }
  assert (Hmod : Z.pos z mod 2 ^ (n + 1)
                 = Z.pos z mod 2 ^ n + 2 ^ n * (m mod 2)).
  { rewrite Z.pow_add_r, Z.pow_1_r, Z.rem_mul_r by lia. by rewrite Hm. }
  pose proof (Z.mod_pos_bound (Z.pos z) (2 ^ n) Hpow) as Hrem.
  set (rem := Z.pos z mod 2 ^ n) in *.
  assert (Hrs : r || s = negb (rem =? 0)).
  { unfold loc_of_rem in Hl. destruct (Z.eqb_spec rem 0);
      destruct r, s; simpl in *; try done. }
  split; [done|]. cbn [loc_of_shr_record shr_m shr_r shr_s].
  rewrite Hmod, Hrs. unfold loc_of_rem.
  rewrite Z.pow_add_r, Z.pow_1_r by lia.
  rewrite Zmod_odd. destruct (Z.odd m).
  - destruct (Z.eqb_spec (rem + 2 ^ n * 1) 0) as [?|_]; [lia|].
    destruct (Z.eqb_spec rem 0) as [->|Hne]; simpl.
    + f_equal. symmetry. apply Z.compare_eq_iff. lia.
    + f_equal. symmetry. apply Z.compare_gt_iff. lia.
  - rewrite Z.mul_0_r, Z.add_0_r.
    destruct (Z.eqb_spec rem 0) as [?|Hne]; simpl; [done|].
    f_equal. symmetry. apply Z.compare_lt_iff. lia.
Qed.

Lemma shifted_iter (z p : positive) (n : Z) (mrs : shr_record) :
  0 <= n -> shifted z n mrs ->
  shifted z (n + Z.pos p) (SpecFloat.iter_pos shr_1 p mrs).
Proof.
  revert n mrs. induction p as [p IH|p IH|]; intros n mrs Hn Hs; cbn [SpecFloat.iter_pos].
  - replace (n + Z.pos p~1) with (n + 1 + Z.pos p + Z.pos p) by lia.
    apply IH; [lia|]. apply IH; [lia|]. by apply shifted_step.
  - replace (n + Z.pos p~0) with (n + Z.pos p + Z.pos p) by lia.
    apply IH; [lia|]. by apply IH.
  - by apply shifted_step.
Qed.

Lemma pow2_split (a b : Z) : 0 <= a -> 0 <= b -> 2 ^ (a + b) = 2 ^ a * 2 ^ b.
Proof. intros. by apply Z.pow_add_r. Qed.

Lemma digits_le_1000 (z : positive) :
  Z.pos z < 2 ^ 1000 -> 1 <= Z.pos (digits2_pos z) <= 1000.
Proof.
  intros Hz. pose proof (digits2_pos_bounds z) as [Hlo _].
  split; [lia|].
  destruct (Z.le_gt_cases (Z.pos (digits2_pos z)) 1000) as [?|Hgt]; [done|].
  assert (2 ^ 1000 <= 2 ^ (Z.pos (digits2_pos z) - 1))
    by (apply Z.pow_le_mono_r; lia).
  lia.
Qed.

(** The mantissa that the shifts leave of an integer of more than 53
    digits. *)
Lemma shifted_mantissa_normal (z : positive) :
  53 < Z.pos (digits2_pos z) <= 1000 ->
  let sh := Z.pos (digits2_pos z) - 53 in
  2 ^ 52 <= Z.pos z / 2 ^ sh < 2 ^ 53.
Proof.
  intros Hd sh. pose proof (digits2_pos_bounds z) as [Hlo Hhi].
  assert (Hsh : 0 < 2 ^ sh) by (apply Z.pow_pos_nonneg; lia).
  replace (Z.pos (digits2_pos z) - 1) with (sh + 52) in Hlo by (unfold sh; lia).
  replace (Z.pos (digits2_pos z)) with (sh + 53) in Hhi by (unfold sh; lia).
  rewrite pow2_split in Hlo, Hhi by (unfold sh; lia).
  split.
  - apply Z.div_le_lower_bound; lia.
  - apply Z.div_lt_upper_bound; lia.
Qed.

Lemma rounded_normal (z : positive) :
  Z.pos z < 2 ^ 1000 ->
  normal (rounded z).1 (rounded z).2 /\ -52 <= (rounded z).2 <= 948.
Proof.
  intros Hz. pose proof (digits_le_1000 z Hz) as Hd.
  pose proof (digits2_pos_bounds z) as [Hlo Hhi].
  unfold rounded. set (d := Z.pos (digits2_pos z)) in *.
  destruct (Z.leb_spec d 53) as [Hle|Hgt]; cbn [fst snd].
  - assert (Hp : 0 < 2 ^ (53 - d)) by (apply Z.pow_pos_nonneg; lia).
    assert (H52 : 2 ^ 52 = 2 ^ (d - 1) * 2 ^ (53 - d))
      by (rewrite <- pow2_split by lia; f_equal; lia).
    assert (H53 : 2 ^ 53 = 2 ^ d * 2 ^ (53 - d))
      by (rewrite <- pow2_split by lia; f_equal; lia).
    split; [|lia]. split; [|lia].
    rewrite Z2Pos.id by lia. rewrite H52, H53. split.
    + apply Z.mul_le_mono_nonneg_r; lia.
    + apply Z.mul_lt_mono_pos_r; lia.
  - pose proof (shifted_mantissa_normal z ltac:(fold d; lia)) as Hm0.
    fold d in Hm0. cbv zeta in Hm0.
    set (m0 := Z.pos z / 2 ^ (d - 53)) in *.
    set (l := loc_of_rem _ _).
    destruct (round_nearest_even_cases m0 l) as [Hr|Hr]; rewrite Hr.
    + destruct (Z.ltb_spec m0 (2 ^ 53)) as [Hlt|Hge]; cbn [fst snd];
        (split; [split; [rewrite ?Z2Pos.id by lia; lia | lia] | lia]).
    + destruct (Z.ltb_spec (m0 + 1) (2 ^ 53)) as [Hlt|Hge]; cbn [fst snd];
        (split; [split; [rewrite ?Z2Pos.id by lia; lia | lia] | lia]).
Qed.

(** The conversion of a positive integer below [2 ^ 1000] returns the
    nearest binary64 number. *)
Lemma float_of_int_rounded (z : positive) :
  Z.pos z < 2 ^ 1000 ->
  float_of_int (Z.pos z)
  = Returns (S754_finite false (rounded z).1 (rounded z).2).
Proof.
  intros Hz. pose proof (digits_le_1000 z Hz) as Hd.
  pose proof (rounded_normal z Hz) as [Hn He].
  pose proof (digits2_pos_bounds z) as [Hlo Hhi].
  unfold float_of_int, binary_normalize, binary_round.
  revert Hn He. unfold rounded.
  set (d := Z.pos (digits2_pos z)) in *.
  rewrite Z.add_0_r, fexp_normal by lia.
  destruct (Z.leb_spec d 53) as [Hle|Hgt]; cbn [fst snd]; intros Hn He.
  - assert (Hal : shl_align z 0 (d - 53)
                  = (Z.to_pos (Z.pos z * 2 ^ (53 - d)), d - 53)).
    { unfold shl_align. destruct (decide (d = 53)) as [->|Hne].
      - simpl. f_equal. lia.
      - replace (d - 53 - 0) with (Z.neg (Z.to_pos (53 - d))) by lia.
        f_equal. apply Pos2Z.inj. rewrite pos_iter_xO.
        rewrite !Z2Pos.id; [done | | lia].
        apply Z.mul_pos_pos; [lia | apply Z.pow_pos_nonneg; lia]. }
    rewrite Hal.
    destruct (binary_round_aux_normal _ _ loc_Exact Hn ltac:(lia))
      as (m' & e' & Heq & _ & _ & Hex).
    destruct (Hex eq_refl) as [-> ->]. by rewrite Heq.
  - assert (Hal : shl_align z 0 (d - 53) = (z, 0)).
    { unfold shl_align. by replace (d - 53 - 0) with (Z.pos (Z.to_pos (d - 53))) by lia. }
    rewrite Hal, binary_round_aux_finish. unfold shr_fexp.
    change (Zdigits2 (Z.pos z)) with d.
    rewrite Z.add_0_r, fexp_normal, Z.sub_0_r by lia.
    replace (d - 53) with (Z.pos (Z.to_pos (d - 53))) at 1 by lia.
    cbn [shr].
    assert (Hs0 : shifted z 0 (shr_record_of_loc (Z.pos z) loc_Exact)).
    { split; simpl; [by rewrite Z.div_1_r | by rewrite Z.mod_1_r]. }
    apply (shifted_iter z (Z.to_pos (d - 53)) 0 _ ltac:(lia)) in Hs0.
    rewrite Z.add_0_l, Z2Pos.id in * by lia.
    destruct Hs0 as [Hm Hl]. rewrite Hm, Hl.
    pose proof (shifted_mantissa_normal z ltac:(fold d; lia)) as Hm0.
    fold d in Hm0. cbv zeta in Hm0.
    destruct (Z.pos z / 2 ^ (d - 53)) as [|m0|m0] eqn:Hdiv; try lia.
    rewrite round_finish_explicit by (try split; lia).
    by destruct (round_nearest_even (Z.pos m0) _ <? 2 ^ 53).
Qed.

Lemma round_loc_mono (m sh r1 r2 : Z) :
  0 <= r1 <= r2 ->
  round_nearest_even m (loc_of_rem sh r1) <= round_nearest_even m (loc_of_rem sh r2).
Proof.
  intros Hr. unfold loc_of_rem.
  destruct (Z.eqb_spec r1 0), (Z.eqb_spec r2 0); try lia.
  - destruct (round_nearest_even_cases m (loc_Inexact (2 * r2 ?= 2 ^ sh))) as [->| ->];
      simpl; lia.
  - destruct (Z.compare_spec (2 * r1) (2 ^ sh)), (Z.compare_spec (2 * r2) (2 ^ sh));
      simpl; destruct (Z.even m); lia.
Qed.

Lemma digits2_pos_mono (z1 z2 : positive) :
  Z.pos z1 <= Z.pos z2 -> Z.pos (digits2_pos z1) <= Z.pos (digits2_pos z2).
Proof.
  intros Hz. pose proof (digits2_pos_bounds z1) as [Hlo1 _].
  pose proof (digits2_pos_bounds z2) as [_ Hhi2].
  destruct (Z.le_gt_cases (Z.pos (digits2_pos z1)) (Z.pos (digits2_pos z2)))
    as [?|Hgt]; [done|].
  assert (2 ^ Z.pos (digits2_pos z2) <= 2 ^ (Z.pos (digits2_pos z1) - 1))
    by (apply Z.pow_le_mono_r; lia).
  lia.
Qed.


(** Rounding is monotone: of two integers, the larger has the larger
    exponent or, with equal exponents, the larger mantissa. *)
Lemma rounded_mono (z1 z2 : positive) :
  Z.pos z1 <= Z.pos z2 -> Z.pos z2 < 2 ^ 1000 ->
  (rounded z1).2 < (rounded z2).2
  \/ ((rounded z1).2 = (rounded z2).2
      /\ Z.pos (rounded z1).1 <= Z.pos (rounded z2).1).
Proof.
  intros Hle Hz2. assert (Hz1 : Z.pos z1 < 2 ^ 1000) by lia.
  pose proof (digits_le_1000 z1 Hz1) as Hd1.
  pose proof (digits_le_1000 z2 Hz2) as Hd2.
  pose proof (digits2_pos_mono z1 z2 Hle) as Hd.
  unfold rounded.
  set (d1 := Z.pos (digits2_pos z1)) in *. set (d2 := Z.pos (digits2_pos z2)) in *.
  destruct (Z.leb_spec d1 53) as [H1|H1], (Z.leb_spec d2 53) as [H2|H2];
    cbn [fst snd]; try lia.
  - destruct (decide (d1 = d2)) as [Heq|Hne]; [right|left; lia].
    split; [lia|]. rewrite <- Heq.
    assert (Hp : 0 < 2 ^ (53 - d1)) by (apply Z.pow_pos_nonneg; lia).
    rewrite !Z2Pos.id by (apply Z.mul_pos_pos; lia).
    apply Z.mul_le_mono_nonneg_r; lia.
  - left. destruct (_ <? 2 ^ 53); cbn [fst snd]; lia.
  - pose proof (shifted_mantissa_normal z1 ltac:(fold d1; lia)) as Hm1.
    pose proof (shifted_mantissa_normal z2 ltac:(fold d2; lia)) as Hm2.
    fold d1 in Hm1. fold d2 in Hm2. cbv zeta in Hm1, Hm2.
    assert (Hround : d1 = d2 ->
      round_nearest_even (Z.pos z1 / 2 ^ (d1 - 53))
        (loc_of_rem (d1 - 53) (Z.pos z1 mod 2 ^ (d1 - 53)))
      <= round_nearest_even (Z.pos z2 / 2 ^ (d2 - 53))
           (loc_of_rem (d2 - 53) (Z.pos z2 mod 2 ^ (d2 - 53)))).
    { intros <-. set (sh := d1 - 53) in *.
      assert (Hp : 0 < 2 ^ sh) by (apply Z.pow_pos_nonneg; lia).
      pose proof (Z.div_mod (Z.pos z1) (2 ^ sh) ltac:(lia)) as Hdm1.
      pose proof (Z.div_mod (Z.pos z2) (2 ^ sh) ltac:(lia)) as Hdm2.
      pose proof (Z.mod_pos_bound (Z.pos z1) (2 ^ sh) Hp) as Hb1.
      pose proof (Z.mod_pos_bound (Z.pos z2) (2 ^ sh) Hp) as Hb2.
      pose proof (Z.div_le_mono (Z.pos z1) (Z.pos z2) (2 ^ sh) Hp Hle) as Hdiv.
      destruct (decide (Z.pos z1 / 2 ^ sh = Z.pos z2 / 2 ^ sh)) as [Heq|Hne].
      - rewrite Heq. apply round_loc_mono. rewrite Heq in Hdm1. lia.
      - destruct (round_nearest_even_cases (Z.pos z1 / 2 ^ sh)
                    (loc_of_rem sh (Z.pos z1 mod 2 ^ sh))) as [->| ->];
          destruct (round_nearest_even_cases (Z.pos z2 / 2 ^ sh)
                    (loc_of_rem sh (Z.pos z2 mod 2 ^ sh))) as [->| ->]; lia. }
    set (r1 := round_nearest_even (Z.pos z1 / 2 ^ (d1 - 53)) _) in *.
    set (r2 := round_nearest_even (Z.pos z2 / 2 ^ (d2 - 53)) _) in *.
    assert (Hr2 : 2 ^ 52 <= r2).
    { unfold r2. destruct (round_nearest_even_cases (Z.pos z2 / 2 ^ (d2 - 53))
        (loc_of_rem (d2 - 53) (Z.pos z2 mod 2 ^ (d2 - 53)))) as [->| ->]; lia. }
    destruct (Z.ltb_spec r1 (2 ^ 53)) as [Hc1|Hc1],
      (Z.ltb_spec r2 (2 ^ 53)) as [Hc2|Hc2]; cbn [fst snd].
    + destruct (decide (d1 = d2)) as [Heq|Hne]; [right|left; lia].
      split; [lia|]. specialize (Hround Heq).
      assert (0 < r1).
      { unfold r1. destruct (round_nearest_even_cases (Z.pos z1 / 2 ^ (d1 - 53))
          (loc_of_rem (d1 - 53) (Z.pos z1 mod 2 ^ (d1 - 53)))) as [->| ->]; lia. }
      rewrite !Z2Pos.id by lia. done.
    + left. lia.
    + destruct (decide (d1 = d2)) as [Heq|Hne].
      * specialize (Hround Heq). lia.
      * destruct (decide (d1 + 1 = d2)) as [Heq'|Hne']; [right|left; lia].
        split; [lia|]. rewrite Z2Pos.id by lia. lia.
    + destruct (decide (d1 = d2)) as [Heq|Hne]; [right; split; lia|left; lia].
Qed.

(** *** The quotient [gram_count * 1.0 / total_grams] *)

Lemma float_of_int_pos (z : Z) :
  1 <= z < 2 ^ 1000 ->
  exists m e,
    float_of_int z = Returns (S754_finite false m e)
    /\ normal m e /\ -52 <= e <= 948
    /\ (m, e) = rounded (Z.to_pos z).
Proof.
  intros Hz. destruct z as [|p|p]; try lia.
  pose proof (rounded_normal p ltac:(lia)) as [Hn He].
  exists (rounded p).1, (rounded p).2.
  rewrite float_of_int_rounded by lia. simpl Z.to_pos.
  by destruct (rounded p).
Qed.

Lemma float_of_int_no_zero_division (z : Z) :
  float_of_int z <> Raises ZeroDivisionError.
Proof.
  unfold float_of_int. by destruct (binary_normalize prec emax z 0 false).
Qed.

(** A count that is at least the number of n-grams scores at least
    [1.0]. *)
Lemma percentage_ge_one (gram_count total_grams : Z) :
  1 <= total_grams <= gram_count -> gram_count < 2 ^ 1000 ->
  exists m e,
    percentage gram_count total_grams = Returns (S754_finite false m e)
    /\ normal m e /\ -52 <= e.
Proof.
  intros Hn Hc. unfold percentage.
  destruct (float_of_int_pos gram_count ltac:(lia))
    as (mx & ex & -> & Hx & Hex & Hrx).
  destruct (float_of_int_pos total_grams ltac:(lia))
    as (my & ey & -> & Hy & Hey & Hry).
  unfold mbind, outcome_bind, float_truediv; cbv beta iota zeta.
  rewrite SFmul_one by (done || lia).
  pose proof (rounded_mono (Z.to_pos total_grams) (Z.to_pos gram_count)
                ltac:(lia) ltac:(lia)) as Hmono.
  rewrite <- Hrx, <- Hry in Hmono.
  destruct (SFdiv_ge_one mx my ex ey Hx Hy Hmono ltac:(lia))
    as (m & e & -> & Hn' & He').
  by exists m, e.
Qed.

(** A count equal to the number of n-grams scores exactly [1.0]. *)
Lemma percentage_diag (total_grams : Z) :
  1 <= total_grams < 2 ^ 1000 ->
  percentage total_grams total_grams = Returns float_one.
Proof.
  intros Hn. unfold percentage.
  destruct (float_of_int_pos total_grams Hn) as (m & e & -> & Hx & He & _).
  unfold mbind, outcome_bind, float_truediv; cbv beta iota zeta.
  rewrite SFmul_one by (done || lia). f_equal. by apply SFdiv_diag.
Qed.

(** With a positive number of n-grams below [2 ^ 1000] the quotient never
    divides by zero. *)
Lemma percentage_no_zero_division (gram_count total_grams : Z) :
  1 <= total_grams < 2 ^ 1000 ->
  percentage gram_count total_grams <> Raises ZeroDivisionError.
Proof.
  intros Hn. unfold percentage.
  pose proof (float_of_int_no_zero_division gram_count) as Hc.
  unfold mbind, outcome_bind, float_truediv.
  destruct (float_of_int gram_count) as [x|e]; [|done].
  by destruct (float_of_int_pos total_grams Hn) as (m & e & -> & _).
Qed.

(** ** NGramSuggester *)

Lemma length_str_mul (s : str) (n : Z) :
  length (str_mul s n) = (Z.to_nat n * length s)%nat.
Proof.
  unfold str_mul. induction (Z.to_nat n) as [|k IH]; simpl; [done|].
  by rewrite length_app, IH.
Qed.

Lemma length_ngrams_single (text : str) (size : Z) (c : ascii) :
  1 <= size -> length (ngrams text size [c]) = length text.
Proof.
  intros Hsize. rewrite length_ngrams. unfold len.
  rewrite length_app, length_str_mul. simpl. lia.
Qed.


Lemma yield_close_matches_filter (prefix : str) (total_grams : Z)
    (match_percentage : float) (max_distance : Z) (items : list (str * Z)) :
  NGramSuggester.yield_close_matches prefix total_grams match_percentage
    max_distance items
  = filter (fun s => Z.of_nat (distance prefix (take (length prefix) s))
                     < max_distance)
      <$> NGramSuggester.yield_matches total_grams match_percentage items.
Proof.
  induction items as [|[s gram_count] items IH]; simpl; [done|].
  destruct (percentage gram_count total_grams) as [p|e]; simpl; [|done].
  rewrite IH.
  destruct (NGramSuggester.yield_matches total_grams match_percentage items)
    as [yielded|e]; simpl; [|done].
  unfold len. rewrite py_slice_prefix.
  destruct (float_gt p match_percentage); [|done].
  rewrite filter_cons.
  destruct (Z.ltb_spec (Z.of_nat (distance prefix (take (length prefix) s)))
              max_distance) as [Hlt|Hge].
  - by rewrite decide_True.
  - by rewrite decide_False by lia.
Qed.

(** C9. The distance search of NGramSuggester yields, in the same order,
    the candidates that [search] yields for the same prefix and threshold
    and whose leading substring of the length of the prefix (the whole
    candidate when it is shorter) is at distance strictly less than
    [max_leveinshtein_distance] from the prefix; it raises exactly when
    [search] does. *)
Theorem ngram_distance_search_filters_search (self : NGramSuggester.t)
    (prefix : str) (match_percentage : float) (max_leveinshtein_distance : Z) :
  NGramSuggester.search_leveinshtein self prefix match_percentage
    max_leveinshtein_distance
  = filter (fun s => Z.of_nat (distance prefix (take (length prefix) s))
                     < max_leveinshtein_distance)
      <$> NGramSuggester.search self prefix match_percentage.
Proof.
  unfold NGramSuggester.search_leveinshtein, NGramSuggester.search.
  apply yield_close_matches_filter.
Qed.




(** *** Filters, sublists and sorted lists *)

Lemma filter_sublist_impl {A} (P Q : A -> Prop)
    `{forall x, Decision (P x)} `{forall x, Decision (Q x)} (l : list A) :
  (forall x, P x -> Q x) -> filter P l `sublist_of` filter Q l.
Proof.
  intros Himpl. induction l as [|x l IH]; [done|].
  rewrite !filter_cons. destruct (decide (P x)) as [HP|HP].
  - rewrite decide_True by auto. by apply sublist_skip.
  - destruct (decide (Q x)); [by apply sublist_cons | done].
Qed.

Lemma filter_all {A} (P : A -> Prop) `{forall x, Decision (P x)} (l : list A) :
  Forall P l -> filter P l = l.
Proof.
  induction 1 as [|x l Hx Hl IH]; [done|].
  by rewrite filter_cons, decide_True, IH.
Qed.

Lemma StronglySorted_filter_le (P : str -> Prop) `{forall x, Decision (P x)}
    (l : list str) :
  StronglySorted str_le l -> StronglySorted str_le (filter P l).
Proof.
  induction 1 as [|x l Hl IH Hx]; [constructor|].
  rewrite filter_cons. destruct (decide (P x)); [|done].
  constructor; [done|]. rewrite Forall_forall in Hx |- *.
  intros y Hy. apply Hx. by apply list_elem_of_filter in Hy as [_ Hy].
Qed.

Lemma distance_le_max (a b : str) :
  (distance a b <= Nat.max (length a) (length b))%nat.
Proof.
  revert b. induction a as [|c a IH]; intros b.
  - destruct b; simpl; lia.
  - destruct b as [|d b]; [simpl; lia|].
    rewrite distance_cons_cons. specialize (IH b). simpl length.
    destruct (bool_decide (c = d)); lia.
Qed.

Lemma sort_sorted_id (l : list str) : StronglySorted str_le l -> sort l = l.
Proof.
  induction 1 as [|x l Hl IH Hx]; [done|].
  simpl. rewrite IH. destruct l as [|y l']; [done|]. simpl.
  apply Forall_cons in Hx as [Hxy _]. unfold str_le, str_leb in Hxy.
  by destruct (str_ltb y x).
Qed.

Lemma take_while_sublist {A} (p : A -> bool) (l : list A) :
  take_while p l `sublist_of` l.
Proof.
  induction l as [|x l IH]; [done|]. simpl.
  destruct (p x); [by apply sublist_skip | apply sublist_nil_l].
Qed.

Lemma take_while_Forall {A} (p : A -> bool) (l : list A) :
  Forall (fun x => p x = true) (take_while p l).
Proof.
  induction l as [|x l IH]; [constructor|]. simpl.
  destruct (p x) eqn:Hx; by constructor.
Qed.

(** *** The tally of candidates *)

Lemma tally_keys (s : str) (suggestions : list (str * Z)) :
  (tally s suggestions).*1
  = if bool_decide (s ∈ suggestions.*1) then suggestions.*1
    else suggestions.*1 ++ [s].
Proof.
  induction suggestions as [|[s' c] rest IH].
  - done.
  - cbn [tally]. rewrite !fmap_cons. cbn [fst].
    destruct (decide (s' = s)) as [->|Hne].
    + rewrite !bool_decide_eq_true_2 by set_solver. by rewrite fmap_cons.
    + rewrite (bool_decide_eq_false_2 (s' = s)) by done.
      rewrite fmap_cons, IH. cbn [fst].
      destruct (decide (s ∈ rest.*1)) as [Hin|Hin].
      * by rewrite !bool_decide_eq_true_2 by set_solver.
      * by rewrite !bool_decide_eq_false_2 by set_solver.
Qed.

Lemma tally_NoDup (s : str) (suggestions : list (str * Z)) :
  NoDup suggestions.*1 -> NoDup (tally s suggestions).*1.
Proof.
  intros Hnd. rewrite tally_keys. case_bool_decide as Hin; [done|].
  apply NoDup_app. split; [done|]. split; [|apply NoDup_singleton].
  intros x Hx Hx'. apply list_elem_of_singleton in Hx'. by subst.
Qed.

Lemma tally_elem_of (s x : str) (suggestions : list (str * Z)) :
  x ∈ (tally s suggestions).*1 <-> x = s \/ x ∈ suggestions.*1.
Proof.
  rewrite tally_keys. case_bool_decide as Hin.
  - split; [auto|]. intros [->|?]; done.
  - rewrite elem_of_app, list_elem_of_singleton. tauto.
Qed.

Lemma tally_bucket_NoDup (bucket : list str) (suggestions : list (str * Z)) :
  NoDup suggestions.*1 ->
  NoDup (foldl (fun suggestions s => tally s suggestions) suggestions bucket).*1.
Proof.
  revert suggestions. induction bucket as [|s bucket IH]; intros sg Hnd; simpl.
  - done.
  - by apply IH, tally_NoDup.
Qed.

Lemma tally_bucket_elem_of (x : str) (bucket : list str) (suggestions : list (str * Z)) :
  x ∈ (foldl (fun suggestions s => tally s suggestions) suggestions bucket).*1
  <-> x ∈ bucket \/ x ∈ suggestions.*1.
Proof.
  revert suggestions. induction bucket as [|s bucket IH]; intros sg; simpl.
  - set_solver.
  - rewrite IH, tally_elem_of, elem_of_cons. tauto.
Qed.

Lemma tally_grams_NoDup (data : gmap str (list str)) (grams : list str) :
  NoDup (tally_grams data grams).*1.
Proof.
  unfold tally_grams.
  assert (Hnil : NoDup (@nil (str * Z)).*1) by constructor.
  revert Hnil. generalize (@nil (str * Z)).
  induction grams as [|g grams IH]; intros sg Hnd; simpl; [done|].
  by apply IH, tally_bucket_NoDup.
Qed.

Lemma tally_grams_elem_of (x : str) (data : gmap str (list str)) (grams : list str) :
  x ∈ (tally_grams data grams).*1
  <-> exists g, g ∈ grams /\ x ∈ bucket_of data g.
Proof.
  unfold tally_grams.
  transitivity ((exists g, g ∈ grams /\ x ∈ bucket_of data g)
                \/ x ∈ (@nil (str * Z)).*1); [|set_solver].
  generalize (@nil (str * Z)).
  induction grams as [|g grams IH]; intros sg; simpl.
  - set_solver.
  - rewrite IH, tally_bucket_elem_of. set_solver.
Qed.

(** What is yielded is a subsequence of the candidates, in their order. *)
Lemma yield_matches_sublist (total_grams : Z) (match_percentage : float)
    (items : list (str * Z)) (yielded : list str) :
  NGramSuggester.yield_matches total_grams match_percentage items = Returns yielded ->
  yielded `sublist_of` items.*1.
Proof.
  revert yielded. induction items as [|[s c] items IH]; intros yielded; simpl.
  - by intros [= <-].
  - destruct (percentage c total_grams) as [p|e]; [|done]. cbn.
    destruct (NGramSuggester.yield_matches total_grams match_percentage items)
      as [rest|e]; [|done]. cbn.
    intros [= <-]. specialize (IH rest eq_refl).
    destruct (float_gt p match_percentage).
    + by apply sublist_skip.
    + by apply sublist_cons.
Qed.

(** *** The index of NGramSuggester *)

Lemma ngram_index_one_bucket (size : Z) (data : gmap str (list str)) (s g : str) :
  bucket_of (NGramSuggester.index_one size data s) g
  = bucket_of data g
    ++ replicate (occurrences g (ngrams s size default_sentinel)) s.
Proof. apply bucket_of_add_all. Qed.

Lemma ngram_index_bucket (self : NGramSuggester.t) (suggestions : list str) (g : str) :
  bucket_of (NGramSuggester.data (NGramSuggester.index self suggestions)) g
  = bucket_of (NGramSuggester.data self) g
    ++ filings g (NGramSuggester.ngram_size self) suggestions.
Proof.
  destruct self as [data size]. cbn [NGramSuggester.index NGramSuggester.data
                                    NGramSuggester.ngram_size].
  revert data. induction suggestions as [|s suggestions IH]; intros data.
  - by rewrite app_nil_r.
  - cbn [foldl]. rewrite IH, ngram_index_one_bucket, <- app_assoc. done.
Qed.

Lemma filings_app (g : str) (size : Z) (l1 l2 : list str) :
  filings g size (l1 ++ l2) = filings g size l1 ++ filings g size l2.
Proof. unfold filings. apply bind_app. Qed.

Lemma ngram_after_size (size : Z) (calls : list (list str)) :
  NGramSuggester.ngram_size (ngram_after size calls) = size.
Proof.
  unfold ngram_after.
  assert (Hinit : NGramSuggester.ngram_size (NGramSuggester.init size) = size)
    by done.
  revert Hinit. generalize (NGramSuggester.init size).
  induction calls as [|call calls IH]; intros self Hself; [done|].
  cbn [foldl]. by apply IH.
Qed.

Lemma ngram_after_bucket (size : Z) (calls : list (list str)) (g : str) :
  bucket_of (NGramSuggester.data (ngram_after size calls)) g
  = filings g size (concat calls).
Proof.
  unfold ngram_after.
  assert (Hgen : forall self, NGramSuggester.ngram_size self = size ->
    bucket_of (NGramSuggester.data (foldl NGramSuggester.index self calls)) g
    = bucket_of (NGramSuggester.data self) g ++ filings g size (concat calls)).
  { induction calls as [|call calls IH]; intros self Hself.
    - by rewrite app_nil_r.
    - cbn [foldl concat]. rewrite IH by done.
      rewrite ngram_index_bucket, Hself, filings_app, app_assoc. done. }
  by rewrite Hgen.
Qed.

Lemma elem_of_filings (x g : str) (size : Z) (suggestions : list str) :
  x ∈ filings g size suggestions
  <-> x ∈ suggestions /\ g ∈ ngrams x size default_sentinel.
Proof.
  unfold filings. rewrite list_elem_of_bind. split.
  - intros (s & Hx & Hs). apply elem_of_replicate in Hx as [-> Hocc].
    split; [done|]. unfold occurrences in Hocc.
    destruct (filter (fun key => key = g) (ngrams s size default_sentinel))
      as [|k l] eqn:Hf; [done|].
    assert (Hk : k ∈ filter (fun key => key = g) (ngrams s size default_sentinel))
      by (rewrite Hf; left).
    apply list_elem_of_filter in Hk as [-> Hk]. done.
  - intros [Hx Hg]. exists x. split; [|done].
    apply elem_of_replicate. split; [done|]. unfold occurrences.
    assert (Hk : g ∈ filter (fun key => key = g) (ngrams x size default_sentinel))
      by (by apply list_elem_of_filter).
    destruct (filter (fun key => key = g) (ngrams x size default_sentinel));
      [by apply elem_of_nil in Hk | done].
Qed.

(** *** A corpus of one string, searched for itself *)

Lemma occurrences_le_length (g : str) (grams : list str) :
  (occurrences g grams <= length grams)%nat.
Proof. unfold occurrences. apply length_filter. Qed.

Lemma occurrences_pos (g : str) (grams : list str) :
  g ∈ grams -> (1 <= occurrences g grams)%nat.
Proof.
  induction 1 as [g grams|g g' grams Hin IH]; rewrite occurrences_cons.
  - rewrite bool_decide_eq_true_2 by done. lia.
  - lia.
Qed.

Lemma occurrences_NoDup (g : str) (grams : list str) :
  NoDup grams -> g ∈ grams -> occurrences g grams = 1%nat.
Proof.
  induction 1 as [|g' grams Hnin Hnd IH]; intros Hin.
  - by apply elem_of_nil in Hin.
  - rewrite occurrences_cons. apply elem_of_cons in Hin as [->|Hin].
    + rewrite bool_decide_eq_true_2 by done.
      assert (occurrences g' grams = 0%nat); [|lia].
      destruct (occurrences g' grams) eqn:Hocc; [done|].
      exfalso. apply Hnin. unfold occurrences in Hocc.
      destruct (filter (fun key => key = g') grams) as [|k l] eqn:Hf; [done|].
      assert (Hk : k ∈ filter (fun key => key = g') grams) by (rewrite Hf; left).
      by apply list_elem_of_filter in Hk as [-> Hk].
    + rewrite bool_decide_eq_false_2, IH by (done || set_solver). done.
Qed.

Lemma hits_in_bounds (l grams : list str) :
  l ⊆ grams ->
  len l <= hits_in l grams <= len l * len grams
  /\ (NoDup grams -> hits_in l grams = len l).
Proof.
  unfold len. induction l as [|g l IH]; intros Hsub; simpl.
  - split; [lia|done].
  - destruct IH as [Hb Hnd]; [set_solver|].
    pose proof (occurrences_le_length g grams).
    pose proof (occurrences_pos g grams ltac:(set_solver)).
    split; [nia|]. intros Hgr. rewrite Hnd, occurrences_NoDup by (done || set_solver).
    lia.
Qed.

Lemma tally_one_candidate (s : str) (c : Z) :
  0 <= c -> tally s (one_candidate s c) = one_candidate s (c + 1).
Proof.
  intros Hc. unfold one_candidate.
  destruct (Z.eqb_spec c 0) as [->|Hne]; simpl.
  - done.
  - rewrite bool_decide_eq_true_2 by done.
    by destruct (Z.eqb_spec (c + 1) 0); [lia|].
Qed.

Lemma tally_replicate (s : str) (c : Z) (n : nat) :
  0 <= c ->
  foldl (fun suggestions x => tally x suggestions) (one_candidate s c)
    (replicate n s)
  = one_candidate s (c + Z.of_nat n).
Proof.
  revert c. induction n as [|n IH]; intros c Hc.
  - simpl. by rewrite Z.add_0_r.
  - cbn [replicate foldl]. rewrite tally_one_candidate, IH by lia.
    f_equal. lia.
Qed.

Lemma tally_grams_one_string (data : gmap str (list str)) (s : str)
    (grams0 l : list str) (c : Z) :
  (forall g, bucket_of data g = replicate (occurrences g grams0) s) ->
  0 <= c ->
  foldl (fun suggestions ngram =>
           foldl (fun suggestions x => tally x suggestions)
             suggestions (bucket_of data ngram))
    (one_candidate s c) l
  = one_candidate s (c + hits_in l grams0).
Proof.
  intros Hdata. revert c. induction l as [|g l IH]; intros c Hc.
  - simpl. by rewrite Z.add_0_r.
  - cbn [foldl]. rewrite Hdata, tally_replicate, IH by lia.
    f_equal. simpl. lia.
Qed.

Lemma yield_matches_one (total_grams : Z) (t : float) (s : str) (c : Z) :
  NGramSuggester.yield_matches total_grams t [(s, c)]
  = (p ← percentage c total_grams;
     Returns (if float_gt p t then [s] else [])).
Proof. simpl. by destruct (percentage c total_grams). Qed.

(** *** Quotients of positive counts *)

Lemma SFdiv_core_binary_near (mx my : positive) (ex ey : Z) :
  normal mx ex -> normal my ey -> -1021 <= ex - ey ->
  SFdiv_core_binary prec emax (Z.pos mx) ex (Z.pos my) ey
  = ((Z.pos mx * 2 ^ 53) / Z.pos my, ex - ey - 53,
     new_location (Z.pos my) ((Z.pos mx * 2 ^ 53) mod Z.pos my)).
Proof.
  intros Hx Hy Hle. unfold SFdiv_core_binary.
  change (Zdigits2 (Z.pos mx)) with (Z.pos (digits2_pos mx)).
  change (Zdigits2 (Z.pos my)) with (Z.pos (digits2_pos my)).
  rewrite (normal_digits mx ex Hx), (normal_digits my ey Hy).
  replace (53 + ex - (53 + ey)) with (ex - ey) by lia.
  rewrite fexp_normal by lia.
  rewrite Z.min_l by lia.
  replace (ex - ey - (ex - ey - 53)) with 53 by lia. cbv iota.
  change (IntDef.Z.div_eucl (Z.pos mx ≪ 53) (Z.pos my))
    with (Z.div_eucl (Z.shiftl (Z.pos mx) 53) (Z.pos my)).
  rewrite Z.shiftl_mul_pow2 by lia. unfold Z.div, Z.modulo.
  by destruct (Z.div_eucl (Z.pos mx * 2 ^ 53) (Z.pos my)).
Qed.

(** The quotient of two positive normal numbers whose exponents differ by
    at most 1000 is a positive normal number: it neither underflows to
    zero nor overflows. *)
Lemma SFdiv_positive (mx my : positive) (ex ey : Z) :
  normal mx ex -> normal my ey -> -1000 <= ex - ey <= 1000 ->
  exists m e,
    SFdiv prec emax (S754_finite false mx ex) (S754_finite false my ey)
    = S754_finite false m e
    /\ normal m e.
Proof.
  intros Hx Hy Hk. unfold SFdiv.
  rewrite SFdiv_core_binary_near by (done || lia). cbn [xorb].
  set (q := (Z.pos mx * 2 ^ 53) / Z.pos my).
  set (l := new_location _ _).
  destruct Hx as [Hmx Hex], Hy as [Hmy Hey].
  assert (Hq_hi : q < 2 ^ 54) by (apply Z.div_lt_upper_bound; lia).
  assert (Hq_lo : 2 ^ 52 <= q) by (apply Z.div_le_lower_bound; lia).
  destruct q as [|qp|qp]; try lia.
  destruct (Z.lt_ge_cases (Z.pos qp) (2 ^ 53)) as [Hlt|Hge].
  - destruct (binary_round_aux_normal qp (ex - ey - 53) l)
      as (m & e & Heq & Hn & He & _); [split; lia | lia |].
    by exists m, e.
  - destruct (binary_round_aux_54 qp (ex - ey - 53) l)
      as (m & e & Heq & Hn & He); [lia | lia |].
    by exists m, e.
Qed.

(** The quotient of two positive counts is a positive number. *)
Lemma percentage_positive (gram_count total_grams : Z) :
  1 <= gram_count < 2 ^ 1000 -> 1 <= total_grams < 2 ^ 1000 ->
  exists m e,
    percentage gram_count total_grams = Returns (S754_finite false m e).
Proof.
  intros Hc Hn. unfold percentage.
  destruct (float_of_int_pos gram_count Hc) as (mx & ex & -> & Hx & Hex & _).
  destruct (float_of_int_pos total_grams Hn) as (my & ey & -> & Hy & Hey & _).
  unfold mbind, outcome_bind, float_truediv; cbv beta iota zeta.
  rewrite SFmul_one by (done || lia).
  destruct (SFdiv_positive mx my ex ey Hx Hy ltac:(lia)) as (m & e & -> & _).
  by exists m, e.
Qed.

(** [t <= 0.0 < p] gives [t < p]. *)
Lemma float_le_zero_lt_positive (t : float) (m : positive) (e : Z) :
  SFleb t (S754_zero false) = true -> SFltb t (S754_finite false m e) = true.
Proof. by destruct t as [[]|[]| |[] mt et]. Qed.

(** *** The counts of a tally *)

Lemma tally_total_count (s : str) (suggestions : list (str * Z)) :
  total_count (tally s suggestions) = total_count suggestions + 1.
Proof.
  induction suggestions as [|[s' c] rest IH]; simpl; [done|].
  case_bool_decide; simpl; lia.
Qed.

Lemma tally_counts_positive (s : str) (suggestions : list (str * Z)) :
  Forall (fun item => 1 <= item.2) suggestions ->
  Forall (fun item => 1 <= item.2) (tally s suggestions).
Proof.
  induction 1 as [|[s' c] rest Hc Hrest IH]; simpl.
  - by repeat constructor.
  - case_bool_decide; constructor; simpl in *; (lia || done).
Qed.

Lemma tally_bucket_counts (bucket : list str) (suggestions : list (str * Z)) :
  let after := foldl (fun suggestions s => tally s suggestions) suggestions bucket in
  Forall (fun item => 1 <= item.2) suggestions ->
  Forall (fun item => 1 <= item.2) after
  /\ total_count after = total_count suggestions + len bucket.
Proof.
  revert suggestions. induction bucket as [|s bucket IH]; intros suggestions; simpl.
  - intros H. split; [done|]. unfold len. simpl. lia.
  - intros H. destruct (IH (tally s suggestions)) as [Hpos Htotal];
      [by apply tally_counts_positive|].
    split; [done|]. rewrite Htotal, tally_total_count. unfold len. simpl length. lia.
Qed.

Lemma tally_grams_counts (data : gmap str (list str)) (grams : list str)
    (suggestions : list (str * Z)) :
  let after := foldl (fun suggestions ngram =>
                        foldl (fun suggestions s => tally s suggestions)
                          suggestions (bucket_of data ngram))
                 suggestions grams in
  Forall (fun item => 1 <= item.2) suggestions ->
  Forall (fun item => 1 <= item.2) after
  /\ total_count after = total_count suggestions + visited data grams.
Proof.
  revert suggestions. induction grams as [|g grams IH]; intros suggestions; simpl.
  - intros H. split; [done|]. lia.
  - intros H.
    destruct (tally_bucket_counts (bucket_of data g) suggestions H) as [Hpos Htotal].
    destruct (IH _ Hpos) as [Hpos' Htotal'].
    split; [done|]. rewrite Htotal', Htotal. lia.
Qed.

Lemma counts_le_total (suggestions : list (str * Z)) :
  Forall (fun item => 1 <= item.2) suggestions ->
  Forall (fun item => 1 <= item.2 <= total_count suggestions) suggestions
  /\ 0 <= total_count suggestions.
Proof.
  induction 1 as [|[s c] rest Hc Hrest [IH Hnn]]; simpl in *.
  - split; [constructor | lia].
  - split; [|lia]. constructor; simpl; [lia|].
    eapply Forall_impl; [exact IH|]. simpl. intros [s' c'] ?. simpl in *. lia.
Qed.

(** With a threshold of at most [0.0] every candidate is yielded. *)
Lemma yield_matches_all (total_grams : Z) (t : float) (items : list (str * Z)) :
  1 <= total_grams < 2 ^ 1000 ->
  Forall (fun item => 1 <= item.2 < 2 ^ 1000) items ->
  SFleb t (S754_zero false) = true ->
  NGramSuggester.yield_matches total_grams t items = Returns items.*1.
Proof.
  intros Hn Hitems Ht. induction Hitems as [|[s c] items Hc Hitems IH]; simpl; [done|].
  destruct (percentage_positive c total_grams Hc Hn) as (m & e & ->).
  rewrite IH. unfold mbind, outcome_bind, float_gt; cbv beta iota.
  by rewrite float_le_zero_lt_positive.
Qed.

(** *** Comparison with two thresholds *)

Lemma SFcompare_finite_signed (s1 s2 : bool) (m1 m2 : positive) (e1 e2 : Z) :
  SFcompare (S754_finite s1 m1 e1) (S754_finite s2 m2 e2)
  = Some match s1, s2 with
         | true, false => Lt
         | false, true => Gt
         | false, false =>
             match e1 ?= e2 with
             | Lt => Lt
             | Gt => Gt
             | Eq => Z.pos m1 ?= Z.pos m2
             end
         | true, true =>
             match e1 ?= e2 with
             | Lt => Gt
             | Gt => Lt
             | Eq => CompOpp (Z.pos m1 ?= Z.pos m2)
             end
         end.
Proof. reflexivity. Qed.

(** [t1 <= t2 < p] gives [t1 < p], on all floats. *)
Lemma SFltb_le_trans (t1 t2 p : float) :
  SFleb t1 t2 = true -> SFltb t2 p = true -> SFltb t1 p = true.
Proof.
  unfold SFleb, SFltb.
  destruct t1 as [s1|s1| |s1 m1 e1], t2 as [s2|s2| |s2 m2 e2],
           p as [sp|sp| |sp mp ep];
    try (by destruct s1); try (by destruct s2); try (by destruct sp);
    try (by destruct s1, s2); try (by destruct s2, sp); try (by destruct s1, sp);
    try (by destruct s1, s2, sp); try done.
  rewrite !SFcompare_finite_signed.
  destruct s1, s2, sp; try done.
  - destruct (Z.compare_spec e1 e2), (Z.compare_spec e2 ep),
      (Z.compare_spec e1 ep); try done; try lia;
      destruct (Z.compare_spec (Z.pos m1) (Z.pos m2)),
        (Z.compare_spec (Z.pos m2) (Z.pos mp)),
        (Z.compare_spec (Z.pos m1) (Z.pos mp)); try done; try lia.
  - destruct (Z.compare_spec e1 e2), (Z.compare_spec e2 ep),
      (Z.compare_spec e1 ep); try done; try lia;
      destruct (Z.compare_spec (Z.pos m1) (Z.pos m2)),
        (Z.compare_spec (Z.pos m2) (Z.pos mp)),
        (Z.compare_spec (Z.pos m1) (Z.pos mp)); try done; try lia.
Qed.

Lemma filter_sublist_mono {A} (P : A -> Prop) `{forall x, Decision (P x)}
    (l1 l2 : list A) :
  l1 `sublist_of` l2 -> filter P l1 `sublist_of` filter P l2.
Proof.
  induction 1 as [|x l1 l2 Hsub IH|x l1 l2 Hsub IH]; [done| |].
  - rewrite !filter_cons. destruct (decide (P x)); [by apply sublist_skip | done].
  - rewrite filter_cons. destruct (decide (P x)); [by apply sublist_cons | done].
Qed.

(** Raising the threshold removes results and changes nothing else. *)
Lemma yield_matches_threshold (total_grams : Z) (t1 t2 : float)
    (items : list (str * Z)) (yielded1 : list str) :
  SFleb t1 t2 = true ->
  NGramSuggester.yield_matches total_grams t1 items = Returns yielded1 ->
  exists yielded2,
    NGramSuggester.yield_matches total_grams t2 items = Returns yielded2
    /\ yielded2 `sublist_of` yielded1.
Proof.
  intros Ht. revert yielded1.
  induction items as [|[s c] items IH]; intros yielded1; simpl.
  - intros [= <-]. by exists [].
  - destruct (percentage c total_grams) as [p|e]; cbn; [|done].
    destruct (NGramSuggester.yield_matches total_grams t1 items) as [l1|e]; cbn;
      [|done].
    destruct (IH l1 eq_refl) as (l2 & -> & Hsub). cbn.
    intros [= <-]. eexists. split; [done|]. unfold float_gt.
    destruct (SFltb t2 p) eqn:H2.
    + rewrite (SFltb_le_trans t1 t2 p Ht H2). by apply sublist_skip.
    + destruct (SFltb t1 p); [by apply sublist_cons | done].
Qed.

(** ** Further properties of NGramSuggester *)

(** X1. After any sequence of [index] calls, the bucket of an n-gram
    holds the indexed strings that contain it, in indexing order, each
    once per occurrence of the n-gram in the string; the size given at
    construction is kept. *)
Theorem ngram_index_files_each_occurrence (size : Z) (calls : list (list str))
    (g : str) :
  NGramSuggester.ngram_size (ngram_after size calls) = size
  /\ bucket_of (NGramSuggester.data (ngram_after size calls)) g
     = (s ← concat calls;
        replicate (occurrences g (ngrams s size default_sentinel)) s)
  /\ (forall x,
        x ∈ bucket_of (NGramSuggester.data (ngram_after size calls)) g
        <-> x ∈ concat calls /\ g ∈ ngrams x size default_sentinel).
Proof.
  split; [apply ngram_after_size|]. split; [apply ngram_after_bucket|].
  intros x. rewrite ngram_after_bucket. apply elem_of_filings.
Qed.

(** X2. When [search] returns, no string is yielded twice, even if it
    was indexed several times, and every yielded string was indexed and
    shares an n-gram with the prefix. *)
Theorem ngram_search_yields_indexed_once (size : Z) (calls : list (list str))
    (prefix : str) (match_percentage : float) (yielded : list str) :
  NGramSuggester.search (ngram_after size calls) prefix match_percentage
    = Returns yielded ->
  NoDup yielded
  /\ forall x, x ∈ yielded ->
       x ∈ concat calls
       /\ exists g, g ∈ ngrams prefix size default_sentinel
                    /\ g ∈ ngrams x size default_sentinel.
Proof.
  unfold NGramSuggester.search. rewrite ngram_after_size. intros Hsearch.
  apply yield_matches_sublist in Hsearch. split.
  - eapply sublist_NoDup; [apply tally_grams_NoDup | exact Hsearch].
  - intros x Hx. eapply elem_of_sublist in Hx; [|exact Hsearch].
    apply tally_grams_elem_of in Hx as (g & Hg & Hx).
    rewrite ngram_after_bucket in Hx. apply elem_of_filings in Hx as [Hx Hgx].
    split; [done|]. by exists g.
Qed.

Lemma ngram_search_yields_indexed_once_witness :
  NoDup [py "nacht"]
  /\ forall x, x ∈ [py "nacht"] ->
       x ∈ concat [[py "night"; py "nacht"]; [py "nacht"]]
       /\ exists g, g ∈ ngrams (py "nacht") 2 default_sentinel
                    /\ g ∈ ngrams x 2 default_sentinel.
Proof.
  apply (ngram_search_yields_indexed_once 2
           [[py "night"; py "nacht"]; [py "nacht"]] (py "nacht") float_one).
  vm_compute. reflexivity.
Defined.

Lemma yield_matches_no_zero_division (total_grams : Z) (t : float)
    (items : list (str * Z)) :
  1 <= total_grams < 2 ^ 1000 ->
  NGramSuggester.yield_matches total_grams t items <> Raises ZeroDivisionError.
Proof.
  intros Hn. induction items as [|[s c] items IH]; simpl; [done|].
  pose proof (percentage_no_zero_division c total_grams Hn) as Hp.
  destruct (percentage c total_grams) as [p|e]; cbn; [|congruence].
  destruct (NGramSuggester.yield_matches total_grams t items) as [l|e]; cbn;
    [done | congruence].
Qed.

(** X3. [search] never divides by zero, whatever the index, the prefix
    and the threshold: when the prefix has no n-gram nothing is tallied
    and the quotient is not evaluated, and otherwise the divisor is the
    positive number of n-grams.  (The number of n-grams is taken below
    [2 ^ 1000], far above any length a string can have.) *)
Theorem ngram_search_never_divides_by_zero (self : NGramSuggester.t)
    (prefix : str) (match_percentage : float) :
  len (ngrams prefix (NGramSuggester.ngram_size self) default_sentinel) < 2 ^ 1000 ->
  NGramSuggester.search self prefix match_percentage <> Raises ZeroDivisionError.
Proof.
  intros Hlen. unfold NGramSuggester.search.
  destruct (ngrams prefix (NGramSuggester.ngram_size self) default_sentinel)
    as [|g grams] eqn:Hg.
  - done.
  - apply yield_matches_no_zero_division. unfold len in *. simpl in *. lia.
Qed.

Lemma ngram_search_never_divides_by_zero_witness :
  NGramSuggester.search (ngram_after 2 [[py "night"]]) (py "") float_one
  <> Raises ZeroDivisionError.
Proof.
  apply (ngram_search_never_divides_by_zero
           (ngram_after 2 [[py "night"]]) (py "") float_one).
  vm_compute. reflexivity.
Defined.

Lemma ngram_self_search (s : str) (t : float) :
  s <> [] ->
  let grams := ngrams s NGramSuggester.default_ngram_size default_sentinel in
  NGramSuggester.search
    (ngram_after NGramSuggester.default_ngram_size [[s]]) s t
  = (p ← percentage (hits_in grams grams) (len s);
     Returns (if float_gt p t then [s] else []))
  /\ len s <= hits_in grams grams <= len s * len s
  /\ (NoDup grams -> hits_in grams grams = len s).
Proof.
  intros Hs grams.
  assert (Hlen : len grams = len s).
  { unfold len, grams. f_equal.
    apply (length_ngrams_single s NGramSuggester.default_ngram_size "_"%char).
    unfold NGramSuggester.default_ngram_size. lia. }
  destruct (hits_in_bounds grams grams ltac:(done)) as [Hb Hnd].
  rewrite Hlen in Hb, Hnd. split; [|done].
  unfold NGramSuggester.search. rewrite ngram_after_size. fold grams.
  rewrite Hlen. unfold tally_grams.
  change (@nil (str * Z)) with (one_candidate s 0).
  rewrite (tally_grams_one_string _ s grams grams 0); [| |lia].
  2:{ intros g. rewrite ngram_after_bucket. unfold filings. simpl.
      by rewrite app_nil_r. }
  rewrite Z.add_0_l. unfold one_candidate.
  assert (0 < len s) by (destruct s; [done | unfold len; simpl; lia]).
  destruct (Z.eqb_spec (hits_in grams grams) 0) as [?|_]; [lia|].
  apply yield_matches_one.
Qed.

(** X4. On a suggester of the default size whose corpus is exactly [s],
    a non-empty string (of a length below [2 ^ 63]), the search for [s]
    itself yields exactly [s] for every threshold [t < 1.0]; when the
    n-grams of [s] are pairwise distinct its score is exactly [1.0], and
    the search yields nothing for every [t >= 1.0]. *)
Theorem ngram_self_search_threshold (s : str) (t : float) :
  s <> [] -> len s < 2 ^ 63 ->
  let self := ngram_after NGramSuggester.default_ngram_size [[s]] in
  (SFltb t float_one = true ->
     NGramSuggester.search self s t = Returns [s])
  /\ (NoDup (ngrams s NGramSuggester.default_ngram_size default_sentinel) ->
      SFleb float_one t = true ->
      NGramSuggester.search self s t = Returns []).
Proof.
  intros Hs Hlen self.
  destruct (ngram_self_search s t Hs) as (Hsearch & Hb & Hnd).
  unfold self. rewrite Hsearch. clear Hsearch.
  set (hits := hits_in _ _) in *.
  assert (0 < len s) by (destruct s; [done | unfold len; simpl; lia]).
  assert (Hsq : len s * len s < 2 ^ 63 * 2 ^ 63) by nia.
  assert (Hhits : hits < 2 ^ 1000) by lia.
  split.
  - intros Ht.
    destruct (percentage_ge_one hits (len s) ltac:(lia) Hhits)
      as (m & e & -> & Hn & He).
    cbn. unfold float_gt. by rewrite (float_lt_one_le t m e).
  - intros Hgrams Ht. rewrite (Hnd Hgrams), percentage_diag by lia.
    cbn. unfold float_gt. by rewrite float_one_le_not_lt.
Qed.

Lemma ngram_self_search_threshold_witness :
  NGramSuggester.search (ngram_after 2 [[py "abc"]]) (py "abc")
    (S754_finite false 4503599627370496 (-53)) = Returns [py "abc"].
Proof.
  refine (proj1 (ngram_self_search_threshold (py "abc")
                   (S754_finite false 4503599627370496 (-53)) _ _) _).
  - discriminate.
  - vm_compute. reflexivity.
  - vm_compute. reflexivity.
Defined.




(** X5. The distance search of NGramSuggester compares strictly: with
    [max_leveinshtein_distance <= 0] it yields nothing, and with
    [max_leveinshtein_distance = 1] it yields exactly the candidates of
    [search] that start with the prefix; in both cases it raises when
    [search] does. *)
Theorem ngram_distance_search_small_bounds (self : NGramSuggester.t)
    (prefix : str) (match_percentage : float) :
  (forall max_distance, max_distance <= 0 ->
     NGramSuggester.search_leveinshtein self prefix match_percentage max_distance
     = (fun _ => []) <$> NGramSuggester.search self prefix match_percentage)
  /\ NGramSuggester.search_leveinshtein self prefix match_percentage 1
     = filter (fun s => startswith s prefix)
         <$> NGramSuggester.search self prefix match_percentage.
Proof.
  unfold NGramSuggester.search_leveinshtein, NGramSuggester.search.
  split; [intros max_distance Hmax|]; rewrite yield_close_matches_filter;
    destruct (NGramSuggester.yield_matches _ _ _) as [l|e]; try done; cbn; f_equal.
  - apply filter_none, Forall_forall. intros x _. lia.
  - apply list_filter_iff. intros s.
    rewrite Is_true_true, startswith_take_eq.
    split.
    + intros Hd. symmetry. apply distance_zero. lia.
    + intros Heq.
      assert (distance prefix (take (length prefix) s) = 0%nat) as Hz
        by (by apply distance_zero).
      lia.
Qed.

(** X6. With a threshold of [0.0] or below, [search] returns and yields
    exactly the indexed strings that share an n-gram with the prefix,
    each once.  (The number of n-grams of the prefix and the number of
    bucket entries visited are taken below [2 ^ 1000].) *)
Theorem ngram_search_zero_threshold (size : Z) (calls : list (list str))
    (prefix : str) (match_percentage : float) :
  let self := ngram_after size calls in
  let grams := ngrams prefix size default_sentinel in
  len grams < 2 ^ 1000 ->
  visited (NGramSuggester.data self) grams < 2 ^ 1000 ->
  SFleb match_percentage (S754_zero false) = true ->
  exists yielded,
    NGramSuggester.search self prefix match_percentage = Returns yielded
    /\ NoDup yielded
    /\ forall x, x ∈ yielded <->
         x ∈ concat calls
         /\ exists g, g ∈ grams /\ g ∈ ngrams x size default_sentinel.
Proof.
  intros self grams Hlen Hvisited Ht.
  exists (tally_grams (NGramSuggester.data self) grams).*1.
  split; [|split].
  - unfold NGramSuggester.search. subst self. rewrite ngram_after_size.
    fold grams. set (data := NGramSuggester.data (ngram_after size calls)) in *.
    destruct grams as [|g grams'] eqn:Hgrams; [done|].
    rewrite <- Hgrams in *.
    apply yield_matches_all; [|  |done].
    + unfold len in *. rewrite Hgrams in *. simpl length in *. lia.
    + destruct (tally_grams_counts data grams [] ltac:(constructor))
        as [Hpos Htotal].
      destruct (counts_le_total _ Hpos) as [Hle _].
      eapply Forall_impl; [exact Hle|]. intros [s c]. simpl.
      unfold tally_grams. rewrite Htotal. simpl. lia.
  - apply tally_grams_NoDup.
  - intros x. rewrite tally_grams_elem_of. subst self. split.
    + intros (g & Hg & Hx). rewrite ngram_after_bucket in Hx.
      apply elem_of_filings in Hx as [Hx Hgx]. split; [done|]. by exists g.
    + intros (Hx & g & Hg & Hgx). exists g. split; [done|].
      rewrite ngram_after_bucket. by apply elem_of_filings.
Qed.

Lemma ngram_search_zero_threshold_witness :
  exists yielded,
    NGramSuggester.search (ngram_after 2 [[py "night"; py "nacht"; py "dog"]])
      (py "nag") (S754_zero false) = Returns yielded
    /\ NoDup yielded
    /\ forall x, x ∈ yielded <->
         x ∈ concat [[py "night"; py "nacht"; py "dog"]]
         /\ exists g, g ∈ ngrams (py "nag") 2 default_sentinel
                      /\ g ∈ ngrams x 2 default_sentinel.
Proof.
  apply (ngram_search_zero_threshold 2 [[py "night"; py "nacht"; py "dog"]]
           (py "nag") (S754_zero false)); vm_compute; reflexivity.
Defined.

(** X7. Raising the threshold of [search], or lowering the distance
    bound of [search_leveinshtein], never adds a result: what is yielded
    then is part of what was yielded before, in the same order. *)
Theorem ngram_search_monotone (self : NGramSuggester.t) (prefix : str)
    (t1 t2 : float) (d1 d2 : Z) (yielded : list str) :
  SFleb t1 t2 = true -> d1 <= d2 ->
  (NGramSuggester.search self prefix t1 = Returns yielded ->
   exists fewer,
     NGramSuggester.search self prefix t2 = Returns fewer
     /\ fewer `sublist_of` yielded)
  /\ (NGramSuggester.search_leveinshtein self prefix t1 d2 = Returns yielded ->
      exists fewer,
        NGramSuggester.search_leveinshtein self prefix t2 d1 = Returns fewer
        /\ fewer `sublist_of` yielded).
Proof.
  intros Ht Hd. split.
  - apply yield_matches_threshold, Ht.
  - unfold NGramSuggester.search_leveinshtein. rewrite !yield_close_matches_filter.
    set (n := len _). set (items := tally_grams _ _).
    destruct (NGramSuggester.yield_matches n t1 items) as [l1|e] eqn:H1;
      unfold fmap at 1, outcome_fmap at 1; [|done].
    destruct (yield_matches_threshold n t1 t2 items l1 Ht H1) as (l2 & -> & Hsub).
    intros [= <-]. eexists. split; [reflexivity|].
    etrans; [|by apply filter_sublist_mono].
    apply filter_sublist_impl. lia.
Qed.

Lemma ngram_search_monotone_witness :
  (NGramSuggester.search (ngram_after 2 [[py "night"; py "nacht"]]) (py "nag")
     (S754_zero false) = Returns [py "night"; py "nacht"] ->
   exists fewer,
     NGramSuggester.search (ngram_after 2 [[py "night"; py "nacht"]]) (py "nag")
       float_one = Returns fewer
     /\ fewer `sublist_of` [py "night"; py "nacht"])
  /\ (NGramSuggester.search_leveinshtein
        (ngram_after 2 [[py "night"; py "nacht"]]) (py "nag")
        (S754_zero false) 3 = Returns [py "night"; py "nacht"] ->
      exists fewer,
        NGramSuggester.search_leveinshtein
          (ngram_after 2 [[py "night"; py "nacht"]]) (py "nag") float_one 2
        = Returns fewer
        /\ fewer `sublist_of` [py "night"; py "nacht"]).
Proof.
  apply (ngram_search_monotone (ngram_after 2 [[py "night"; py "nacht"]])
           (py "nag") (S754_zero false) float_one 2 3 [py "night"; py "nacht"]);
    vm_compute; [reflexivity | discriminate].
Defined.

(** ** Further properties of the simple suggesters and of the tokenizer *)

(** X8. [BruteForceSuggester.index] appends the suggestions to the list
    in their order, duplicates included, so that after any sequence of
    calls the list is the concatenation of everything indexed; what a
    search yielded before a call is yielded first after it. *)
Theorem brute_force_index_appends (self : BruteForceSuggester.t)
    (suggestions : list str) (calls : list (list str)) (prefix : str) :
  BruteForceSuggester.data (BruteForceSuggester.index self suggestions)
    = BruteForceSuggester.data self ++ suggestions
  /\ BruteForceSuggester.data (brute_force_after calls) = concat calls
  /\ BruteForceSuggester.search (BruteForceSuggester.index self suggestions) prefix
     = BruteForceSuggester.search self prefix
       ++ filter (fun s => startswith s prefix) suggestions.
Proof.
  split; [apply append_all_app|]. split; [apply brute_force_after_data|].
  unfold BruteForceSuggester.search. simpl.
  by rewrite append_all_app, filter_app.
Qed.

(** X9. The linear scan keeps the storage order and yields only entries
    that start with the prefix; with the empty prefix it yields every
    entry. *)
Theorem brute_force_search_scans_in_order (self : BruteForceSuggester.t)
    (prefix : str) :
  BruteForceSuggester.search self prefix `sublist_of` BruteForceSuggester.data self
  /\ Forall (fun s => take (length prefix) s = prefix)
       (BruteForceSuggester.search self prefix)
  /\ BruteForceSuggester.search self [] = BruteForceSuggester.data self.
Proof.
  unfold BruteForceSuggester.search. split; [apply sublist_filter|]. split.
  - apply Forall_forall. intros s Hs.
    apply list_elem_of_filter in Hs as [Hs _].
    by apply startswith_take_eq, Is_true_true.
  - apply filter_all, Forall_forall. intros s _. by destruct s.
Qed.

(** X10. The distance search of BruteForceSuggester yields nothing for a
    negative bound, more (never less) for a larger bound, every
    exact-prefix match for a bound of at least [0], and every entry for
    a bound of at least [len(prefix)]. *)
Theorem brute_force_distance_search_bounds (self : BruteForceSuggester.t)
    (prefix : str) (d1 d2 : Z) :
  (d1 < 0 -> BruteForceSuggester.search_leveinshtein self prefix d1 = [])
  /\ (d1 <= d2 ->
      BruteForceSuggester.search_leveinshtein self prefix d1
        `sublist_of` BruteForceSuggester.search_leveinshtein self prefix d2)
  /\ (0 <= d1 ->
      BruteForceSuggester.search self prefix
        `sublist_of` BruteForceSuggester.search_leveinshtein self prefix d1)
  /\ (len prefix <= d1 ->
      BruteForceSuggester.search_leveinshtein self prefix d1
      = BruteForceSuggester.data self).
Proof.
  unfold BruteForceSuggester.search_leveinshtein, BruteForceSuggester.search, len.
  split; [|split; [|split]].
  - intros Hd. apply filter_none, Forall_forall. intros s _ Hs%Is_true_true.
    apply Z.leb_le in Hs. lia.
  - intros Hd. apply filter_sublist_impl. intros s Hs%Is_true_true.
    apply Is_true_true. apply Z.leb_le in Hs. apply Z.leb_le. lia.
  - intros Hd. apply filter_sublist_impl. intros s Hs%Is_true_true.
    apply Is_true_true, Z.leb_le. rewrite py_slice_prefix.
    apply startswith_take_eq in Hs.
    assert (distance prefix (take (length prefix) s) = 0%nat) as ->
      by (by apply distance_zero).
    lia.
  - intros Hd. apply filter_all, Forall_forall. intros s _.
    apply Is_true_true, Z.leb_le. rewrite py_slice_prefix.
    pose proof (distance_le_max prefix (take (length prefix) s)) as Hmax.
    rewrite length_take in Hmax. lia.
Qed.

Lemma brute_force_distance_search_bounds_witness :
  BruteForceSuggester.search_leveinshtein
    (brute_force_after [[py "cat"; py "dog"]]) (py "cot") 3
  = [py "cat"; py "dog"].
Proof.
  refine (proj2 (proj2 (proj2 (brute_force_distance_search_bounds
            (brute_force_after [[py "cat"; py "dog"]]) (py "cot") 3 3))) _).
  vm_compute. intros H. discriminate H.
Defined.

(** X11. [BinarySearchSuggester.index] keeps every entry and every new
    suggestion, duplicates included, and leaves the list in ascending
    order whatever the state before; indexing nothing once more changes
    nothing. *)
Theorem binary_search_index_keeps_all (self : BinarySearchSuggester.t)
    (suggestions : list str) :
  BinarySearchSuggester.data (BinarySearchSuggester.index self suggestions)
    ≡ₚ BinarySearchSuggester.data self ++ suggestions
  /\ StronglySorted str_le
       (BinarySearchSuggester.data (BinarySearchSuggester.index self suggestions))
  /\ BinarySearchSuggester.index (BinarySearchSuggester.index self suggestions) []
     = BinarySearchSuggester.index self suggestions.
Proof.
  unfold BinarySearchSuggester.index. simpl. rewrite !append_all_app.
  split; [apply sort_perm|]. split; [apply sort_sorted|].
  f_equal. rewrite ?app_nil_r. apply sort_sorted_id, sort_sorted.
Qed.

(** X12. [BinarySearchSuggester.search] yields, on any state, a part of
    the list in its order, made of entries that start with the prefix.
    After any sequence of [index] calls it yields every such entry, in
    ascending order, and the whole list for the empty prefix. *)
Theorem binary_search_yields_sorted_matches (self : BinarySearchSuggester.t)
    (calls : list (list str)) (prefix : str) :
  BinarySearchSuggester.search self prefix
    `sublist_of` BinarySearchSuggester.data self
  /\ Forall (fun s => take (length prefix) s = prefix)
       (BinarySearchSuggester.search self prefix)
  /\ BinarySearchSuggester.search (binary_search_after calls) prefix
     = filter (fun s => startswith s prefix)
         (BinarySearchSuggester.data (binary_search_after calls))
  /\ StronglySorted str_le
       (BinarySearchSuggester.search (binary_search_after calls) prefix)
  /\ BinarySearchSuggester.search (binary_search_after calls) []
     = BinarySearchSuggester.data (binary_search_after calls).
Proof.
  split; [|split; [|split; [|split]]].
  - unfold BinarySearchSuggester.search, py_slice_from.
    etrans; [apply take_while_sublist | apply sublist_drop].
  - unfold BinarySearchSuggester.search.
    eapply Forall_impl; [apply take_while_Forall|].
    intros s Hs. by apply startswith_take_eq.
  - apply binary_search_sorted, binary_search_after_sorted.
  - rewrite binary_search_sorted by apply binary_search_after_sorted.
    apply StronglySorted_filter_le, binary_search_after_sorted.
  - rewrite binary_search_sorted by apply binary_search_after_sorted.
    apply filter_all, Forall_forall. intros s _. by destruct s.
Qed.

(** X13. For a non-empty prefix, the edge n-gram index answers exactly
    as the linear scan over the same [index] calls: the same strings,
    as often and in the same order.  Indexing more appends the new
    matches to the answer. *)
Theorem edge_search_agrees_with_brute_force (calls : list (list str))
    (suggestions : list str) (prefix : str) :
  prefix <> [] ->
  EdgeNGramSuggester.search (edge_ngram_after calls) prefix
    = BruteForceSuggester.search (brute_force_after calls) prefix
  /\ EdgeNGramSuggester.search
       (EdgeNGramSuggester.index (edge_ngram_after calls) suggestions) prefix
     = EdgeNGramSuggester.search (edge_ngram_after calls) prefix
       ++ filter (fun s => startswith s prefix) suggestions.
Proof.
  intros Hne.
  assert (forall l : list str,
            filter (fun s => nonempty_prefix prefix s) l
            = filter (fun s => startswith s prefix) l) as Hfilter.
  { intros l. apply list_filter_iff. intros s. unfold nonempty_prefix.
    by rewrite bool_decide_eq_false_2. }
  split.
  - rewrite edge_search_after. unfold BruteForceSuggester.search.
    by rewrite brute_force_after_data, Hfilter.
  - by rewrite edge_index_bucket, Hfilter.
Qed.

Lemma edge_search_agrees_with_brute_force_witness :
  EdgeNGramSuggester.search
    (edge_ngram_after [[py "cat"; py "dog"]; [py "car"; py "cat"]]) (py "ca")
  = BruteForceSuggester.search
      (brute_force_after [[py "cat"; py "dog"]; [py "car"; py "cat"]]) (py "ca").
Proof.
  refine (proj1 (edge_search_agrees_with_brute_force
                   [[py "cat"; py "dog"]; [py "car"; py "cat"]] [] (py "ca") _)).
  vm_compute. intros H. discriminate H.
Defined.

(** X14. With a sentinel of any length and a size of at least [1],
    [ngrams] yields [len(text) + (size - 1) * (len(sentinel) - 1)]
    strings (none when that number is negative), each of [size]
    characters. *)
Theorem ngrams_count_and_width (text : str) (size : Z) (sentinel : str) :
  1 <= size ->
  length (ngrams text size sentinel)
    = Z.to_nat (len text + (size - 1) * (len sentinel - 1))
  /\ Forall (fun gram => len gram = size) (ngrams text size sentinel).
Proof.
  intros Hsize. split.
  - rewrite length_ngrams. f_equal. unfold len.
    rewrite length_app, length_str_mul, Nat2Z.inj_add, Nat2Z.inj_mul.
    rewrite Z2Nat.id by lia. lia.
  - unfold ngrams, range. apply Forall_fmap, Forall_forall.
    intros i Hi%elem_of_seqZ. simpl.
    rewrite py_slice_inside by lia. unfold len in *.
    rewrite length_take, length_drop. lia.
Qed.

Lemma ngrams_count_and_width_witness :
  length (ngrams (py "ab") 3 (py "<>")) = 4%nat
  /\ Forall (fun gram => len gram = 3) (ngrams (py "ab") 3 (py "<>")).
Proof.
  refine (ngrams_count_and_width (py "ab") 3 (py "<>") _). lia.
Defined.
